(** * Heart-beat task of SiriDB (src/siri/heartbeat.c)

    A shallow embedding of the heart-beat scheduler and of its worker
    traversal, together with the properties its specification states.

    Conventions of the embedding.
    - Pointers to databases and servers are addresses ([nat]); the structs
      they point to are read through the shared store [siri_t].
    - A call into code outside heartbeat.c (libuv, the reference-count
      macros, the connector, [sleep], the list helpers) is recorded as an
      [event]; a run of a function yields the list of calls it made, in
      order.  The only call whose effect on the shared store is read back
      by heartbeat.c is [siridb_server_connect], whose effect is the
      parameter [connector].
    - [heartbeat.status] is written on the main thread and read on the
      worker thread.  The worker's reads go through [status_at]: the value
      of the field at the worker's logical time, which is the number of
      external calls the worker has made so far.  Between two reads of the
      field the worker always makes at least one call, so nothing is lost.
    - Calls to the logger are left out: they touch no state of this file. *)

From stdpp Require Import gmultiset.
From stdpp Require Import base decidable option list numbers strings.
From Stdlib Require Import ZArith Lia.

Open Scope Z_scope.

(** ** Data *)

(** [enum siri_heartbeat_status] *)
Inductive siri_heartbeat_status_t :=
  | SIRI_HEARTBEAT_PENDING
  | SIRI_HEARTBEAT_RUNNING
  | SIRI_HEARTBEAT_CANCELLED.

#[global] Instance siri_heartbeat_status_eq_dec : EqDecision siri_heartbeat_status_t.
Proof. solve_decision. Defined.

Definition siridb_ptr := nat.
Definition server_ptr := nat.
Definition uv_tcp_ptr := nat.

Bind Scope nat_scope with siridb_ptr server_ptr uv_tcp_ptr.

(** The fields of [siridb_server_t] and [siridb_t] that heartbeat.c reads.
    [socket = None] is the NULL pointer; [server] is the entry of the local
    node in [servers]. *)
Record siridb_server_t := { socket : option uv_tcp_ptr }.

Record siridb_t := {
  dbname : string;
  servers : list server_ptr;
  server : server_ptr
}.

(** The part of the global [siri] the worker reads, with the memory its
    pointers lead into. *)
Record siri_t := {
  siridb_list : list siridb_ptr;
  siridb_at : siridb_ptr → siridb_t;
  server_at : server_ptr → siridb_server_t
}.

Inductive mutex :=
  | siridb_mutex
  | servers_mutex (siridb : siridb_ptr).

#[global] Instance mutex_eq_dec : EqDecision mutex.
Proof. solve_decision. Defined.

(** The libuv requests of the main thread. *)
Inductive uv_request :=
  | uv_timer_init
  | uv_timer_start (timeout repeat : Z)
  | uv_cancel
  | uv_queue_work.

#[global] Instance uv_request_eq_dec : EqDecision uv_request.
Proof. solve_decision. Defined.

(** External calls, named after the functions and macros called. *)
Inductive event :=
  | uv_mutex_lock (m : mutex)
  | uv_mutex_unlock (m : mutex)
  | llist2slist (m : mutex)  (* the copy of the list that [m] guards *)
  | slist_free
  | siridb_incref (siridb : siridb_ptr)
  | siridb_decref (siridb : siridb_ptr)
  | siridb_server_incref (srv : server_ptr)
  | siridb_server_decref (srv : server_ptr)
  | sleep (seconds : Z)
  | siridb_server_connect (siridb : siridb_ptr) (srv : server_ptr)
  | uv (r : uv_request).

#[global] Instance event_eq_dec : EqDecision event.
Proof. solve_decision. Defined.

(** ** A state-and-trace monad *)

Definition M (S A : Type) : Type := S → A * S * list event.

#[global] Instance M_ret {S} : MRet (M S) := λ A a s, (a, s, []).
#[global] Instance M_bind {S} : MBind (M S) := λ A B f m s,
  let '(a, s1, e1) := m s in
  let '(b, s2, e2) := f a s1 in
  (b, s2, e1 ++ e2).

Definition result {S A} (r : A * S * list event) : A := r.1.1.
Definition final {S A} (r : A * S * list event) : S := r.1.2.
Definition trace {S A} (r : A * S * list event) : list event := r.2.

Arguments result {S A} !r /.
Arguments final {S A} !r /.
Arguments trace {S A} !r /.

(** [for (i = 0; i < l->len; i++) body(l->data[i])] *)
Fixpoint for_each {S A} (l : list A) (body : A → M S unit) : M S unit :=
  match l with
  | [] => mret tt
  | x :: l' => body x ;; for_each l' body
  end.

(** ** The worker thread *)

Record wstate := { shared : siri_t; clock : nat }.

Section worker.
(** The connector's effect on the shared store. *)
Variable connector : siri_t → siridb_ptr → server_ptr → siri_t.
(** [heartbeat.status] as the worker reads it at a logical time. *)
Variable status_at : nat → siri_heartbeat_status_t.

Definition effect (e : event) (w : siri_t) : siri_t :=
  match e with
  | siridb_server_connect siridb srv => connector w siridb srv
  | _ => w
  end.

Definition call (e : event) : M wstate unit := λ st,
  (tt, {| shared := effect e (shared st); clock := S (clock st) |}, [e]).

Definition read {A} (f : siri_t → A) : M wstate A := λ st,
  (f (shared st), st, []).

Definition heartbeat_status : M wstate siri_heartbeat_status_t := λ st,
  (status_at (clock st), st, []).

Definition skip : M wstate unit := mret tt.

(** Lines 66-76: the snapshot of the databases. *)
Definition snapshot_siridb : M wstate (list siridb_ptr) :=
  call (uv_mutex_lock siridb_mutex) ;;
  slsiridb ← read siridb_list;
  call (llist2slist siridb_mutex) ;;
  for_each slsiridb (λ siridb, call (siridb_incref siridb)) ;;
  call (uv_mutex_unlock siridb_mutex) ;;
  mret slsiridb.

(** Lines 84-94: the snapshot of one database's servers. *)
Definition snapshot_servers (siridb : siridb_ptr) : M wstate (list server_ptr) :=
  call (uv_mutex_lock (servers_mutex siridb)) ;;
  slservers ← read (λ w, servers (siridb_at w siridb));
  call (llist2slist (servers_mutex siridb)) ;;
  for_each slservers (λ srv, call (siridb_server_incref srv)) ;;
  call (uv_mutex_unlock (servers_mutex siridb)) ;;
  mret slservers.

(** Lines 102-104: the condition of the [if], its three operands read
    left to right and only as far as [&&] needs. *)
Definition must_connect (siridb : siridb_ptr) (srv : server_ptr) : M wstate bool :=
  self ← read (λ w, server (siridb_at w siridb));
  if decide (srv ≠ self) then
    st ← heartbeat_status;
    if decide (st ≠ SIRI_HEARTBEAT_CANCELLED) then
      sock ← read (λ w, socket (server_at w srv));
      mret (bool_decide (sock = None))
    else mret false
  else mret false.

(** Lines 100-110: the body of the loop over the servers. *)
Definition visit_server (siridb : siridb_ptr) (srv : server_ptr) : M wstate unit :=
  go ← must_connect siridb srv;
  (if go : bool then call (siridb_server_connect siridb srv) else skip) ;;
  call (siridb_server_decref srv).

(** Lines 82-113: one database, up to the test for cancellation. *)
Definition visit_siridb (siridb : siridb_ptr) : M wstate unit :=
  slservers ← snapshot_servers siridb;
  call (sleep 1) ;;
  for_each slservers (visit_server siridb) ;;
  call slist_free.

(** Lines 78-122: the loop over the databases.  It returns the local
    variable [siridb] as the loop leaves it: the last database visited,
    or its value before the loop when the snapshot is empty. *)
Fixpoint visit_all (slsiridb : list siridb_ptr) (siridb : option siridb_ptr)
  : M wstate (option siridb_ptr) :=
  match slsiridb with
  | [] => mret siridb
  | d :: rest =>
      visit_siridb d ;;
      st ← heartbeat_status;
      if decide (st = SIRI_HEARTBEAT_CANCELLED) then mret (Some d)
      else visit_all rest (Some d)
  end.

(** Lines 124-127: [slsiridb->len] times [siridb_decref(siridb)], the
    variable [siridb] being the one the loop above left.  [None] is the
    uninitialised local, which the code reads only when the loop body
    runs, that is never for an empty snapshot. *)
Definition release_all (slsiridb : list siridb_ptr) (siridb : option siridb_ptr)
  : M wstate unit :=
  for_each slsiridb (λ _,
    match siridb with
    | Some d => call (siridb_decref d)
    | None => skip
    end).

Definition HEARTBEAT_work : M wstate unit :=
  slsiridb ← snapshot_siridb;
  siridb ← visit_all slsiridb None;
  release_all slsiridb siridb.

End worker.

(** ** The main thread *)

(** [siri_heartbeat_t]: [timer] and [work] are handles owned by libuv, whose
    state is libuv's; what is asked of them shows as [uv] events. *)
Record siri_heartbeat_t := {
  status : siri_heartbeat_status_t;
  start : Z
}.

(** The static [heartbeat] and the pointer [siri->heartbeat] (set or not). *)
Record main_state := {
  heartbeat : siri_heartbeat_t;
  siri_heartbeat : bool
}.

Definition set_status (v : siri_heartbeat_status_t) : M main_state unit := λ s,
  (tt, {| heartbeat := {| status := v; start := start (heartbeat s) |};
          siri_heartbeat := siri_heartbeat s |}, []).

Definition set_start (v : Z) : M main_state unit := λ s,
  (tt, {| heartbeat := {| status := status (heartbeat s); start := v |};
          siri_heartbeat := siri_heartbeat s |}, []).

Definition set_siri_heartbeat : M main_state unit := λ s,
  (tt, {| heartbeat := heartbeat s; siri_heartbeat := true |}, []).

Definition get_status : M main_state siri_heartbeat_status_t := λ s,
  (status (heartbeat s), s, []).

Definition return_void : M main_state unit := mret tt.

(** [uint64_t] arithmetic. *)
Definition uint64 (z : Z) : Z := z `mod` 2 ^ 64.

Section main_thread.
(** The code libuv returns for a request. *)
Variable uv_rc : uv_request → Z.

Definition uv_call (r : uv_request) : M main_state Z := λ s, (uv_rc r, s, [uv r]).

(** Lines 29-40.  [heartbeat_interval] is [siri->cfg->heartbeat_interval];
    the timer's callback is [HEARTBEAT_cb].  Both libuv results are
    dropped, and the function returns nothing. *)
Definition siri_heartbeat_init (heartbeat_interval : Z) : M main_state unit :=
  let timeout := uint64 (heartbeat_interval * 1000) in
  set_siri_heartbeat ;;
  set_status SIRI_HEARTBEAT_PENDING ;;
  uv_call uv_timer_init ;;
  uv_call (uv_timer_start timeout timeout) ;;
  return_void.

(** Lines 42-51. *)
Definition siri_heartbeat_cancel : M main_state unit :=
  set_status SIRI_HEARTBEAT_CANCELLED ;;
  uv_call uv_cancel ;;
  return_void.

(** Lines 130-149.  [work_status] is the argument [status] libuv passes
    (0, or UV_ECANCELED when the request was cancelled before it ran) and
    [now] the clock read for the log line; both only feed the logger. *)
Definition HEARTBEAT_work_finish (work_status now : Z) : M main_state unit :=
  st ← get_status;
  if decide (st = SIRI_HEARTBEAT_RUNNING)
  then set_status SIRI_HEARTBEAT_PENDING
  else return_void.

(** Lines 151-174.  The work queued is [HEARTBEAT_work], with
    [HEARTBEAT_work_finish] as its continuation. *)
Definition HEARTBEAT_cb (now : Z) : M main_state unit :=
  st ← get_status;
  if decide (st ≠ SIRI_HEARTBEAT_PENDING) then return_void
  else
    set_status SIRI_HEARTBEAT_RUNNING ;;
    set_start now ;;
    uv_call uv_queue_work ;;
    return_void.

(** *** The event loop around the scheduler

    What happens on the main thread once the scheduler is initialised:
    the timer fires, libuv reports a queued work request as finished (only
    a request in flight can finish), or the host calls
    [siri_heartbeat_cancel].  [in_flight] counts the work requests handed
    to libuv whose continuation has not run yet. *)
Inductive loop_event :=
  | timer_fires (now : Z)
  | work_done (work_status now : Z)
  | cancel_called.

Record loop_state := {
  main : main_state;
  in_flight : nat
}.

Definition is_queue_work (e : event) : bool := bool_decide (e = uv uv_queue_work).

Definition queued (evs : list event) : nat := length (filter is_queue_work evs).

Definition after {A} (r : A * main_state * list event) (n : nat)
  : loop_state * list event :=
  ({| main := final r; in_flight := n + queued (trace r) |}, trace r).

Definition loop_step (s : loop_state) (e : loop_event) : loop_state * list event :=
  match e with
  | timer_fires now => after (HEARTBEAT_cb now (main s)) (in_flight s)
  | work_done work_status now =>
      match in_flight s with
      | O => (s, [])
      | S n => after (HEARTBEAT_work_finish work_status now (main s)) n
      end
  | cancel_called => after (siri_heartbeat_cancel (main s)) (in_flight s)
  end.

Fixpoint loop_run (s : loop_state) (es : list loop_event) : loop_state * list event :=
  match es with
  | [] => (s, [])
  | e :: es' =>
      let '(s1, t1) := loop_step s e in
      let '(s2, t2) := loop_run s1 es' in
      (s2, t1 ++ t2)
  end.

(** The loop right after [siri_heartbeat_init]. *)
Definition boot (heartbeat_interval : Z) (s : main_state) : loop_state :=
  {| main := final (siri_heartbeat_init heartbeat_interval s); in_flight := 0 |}.

End main_thread.

(** ** The timer handle

    [heartbeat.timer] as libuv keeps it.  The handle is static memory
    (line 22), zeroed until [uv_timer_init] makes it a stopped timer of the
    loop; [uv_timer_start] arms a stopped timer, and stops an armed one
    before arming it anew.  libuv lets the memory of a handle be
    initialised again only once the handle has been closed, and heartbeat.c
    neither stops nor closes its timer: [uv_timer_init] on a handle that
    is already initialised links it into the loop's queue of handles a
    second time and clears its flags while it may still sit in the heap of
    timers, after which libuv's state for it is no longer defined.  That is
    [uv_timer_broken]; so is a timer started without being initialised. *)
Inductive uv_timer_state :=
  | uv_timer_unset
  | uv_timer_stopped
  | uv_timer_armed (timeout repeat : Z)
  | uv_timer_broken.

#[global] Instance uv_timer_state_eq_dec : EqDecision uv_timer_state.
Proof. solve_decision. Defined.



(** ** Reading a trace *)

(** The worker's state after a sequence of its calls. *)
Definition advance (connector : siri_t → siridb_ptr → server_ptr → siri_t)
    (st : wstate) (evs : list event) : wstate :=
  foldl (λ st e, {| shared := effect connector e (shared st); clock := S (clock st) |})
        st evs.

(** The condition of lines 102-104, on a state of the worker. *)
Definition connect_allowed (status_at : nat → siri_heartbeat_status_t)
    (st : wstate) (siridb : siridb_ptr) (srv : server_ptr) : Prop :=
  srv ≠ server (siridb_at (shared st) siridb)
  ∧ status_at (clock st) ≠ SIRI_HEARTBEAT_CANCELLED
  ∧ socket (server_at (shared st) srv) = None.

#[global] Instance connect_allowed_dec status_at st siridb srv :
  Decision (connect_allowed status_at st siridb srv).
Proof. unfold connect_allowed. apply _. Defined.

Definition connects (evs : list event) : list (siridb_ptr * server_ptr) :=
  omap (λ e, match e with siridb_server_connect d s => Some (d, s) | _ => None end) evs.

Definition siridb_increfs (evs : list event) : list siridb_ptr :=
  omap (λ e, match e with siridb_incref d => Some d | _ => None end) evs.

Definition siridb_decrefs (evs : list event) : list siridb_ptr :=
  omap (λ e, match e with siridb_decref d => Some d | _ => None end) evs.

Definition server_increfs (evs : list event) : list server_ptr :=
  omap (λ e, match e with siridb_server_incref s => Some s | _ => None end) evs.

Definition server_decrefs (evs : list event) : list server_ptr :=
  omap (λ e, match e with siridb_server_decref s => Some s | _ => None end) evs.

(** How often a handle occurs among the handles of a kind of call. *)
Definition times (x : nat) (l : list nat) : nat := length (filter (λ y, y = x) l).

(** The databases the traversal entered: those whose servers it locked. *)
Definition visited (evs : list event) : list siridb_ptr :=
  omap (λ e, match e with uv_mutex_lock (servers_mutex d) => Some d | _ => None end) evs.

(** The mutexes held after a sequence of calls, given those held before. *)
Definition locks_step (held : list mutex) (e : event) : list mutex :=
  match e with
  | uv_mutex_lock m => m :: held
  | uv_mutex_unlock m => filter (λ x, x ≠ m) held
  | _ => held
  end.

Definition locks_after (held : list mutex) (evs : list event) : list mutex :=
  foldl locks_step held evs.

Definition locks_held (evs : list event) : list mutex := locks_after [] evs.

(** The calls of a snapshot: the copy, the increments, and the unlock. *)
Definition snapshot_call (e : event) : bool :=
  match e with
  | llist2slist _ | siridb_incref _ | siridb_server_incref _ | uv_mutex_unlock _ => true
  | _ => false
  end.

(** The calls that wait or do I/O. *)
Definition blocking_call (e : event) : bool :=
  match e with
  | sleep _ | siridb_server_connect _ _ => true
  | _ => false
  end.

(** While a mutex is held only snapshot calls are made. *)
Fixpoint guards_ok (held : list mutex) (evs : list event) : bool :=
  match evs with
  | [] => true
  | e :: evs' =>
      (bool_decide (held = []) || snapshot_call e) && guards_ok (locks_step held e) evs'
  end.

(** A stretch of calls that starts and ends with no mutex held and keeps
    to snapshot calls while one is held. *)
Definition calm (evs : list event) : Prop :=
  guards_ok [] evs = true ∧ locks_held evs = [].

(** A server the traversal has nothing to do for: the local node, or a
    peer with a socket. *)
Definition server_settled (w : siri_t) (siridb : siridb_ptr) (srv : server_ptr) : bool :=
  bool_decide (srv = server (siridb_at w siridb))
  || bool_decide (socket (server_at w srv) ≠ None).

Definition siridb_settled (w : siri_t) (siridb : siridb_ptr) : bool :=
  forallb (server_settled w siridb) (servers (siridb_at w siridb)).

(** Every server of every listed database is the local node or has a socket. *)
Definition all_connected (w : siri_t) : bool :=
  forallb (siridb_settled w) (siridb_list w).

(** The calls made between the two snapshots of the databases' handles:
    none of them touches the reference count of a database. *)
Definition loop_call (e : event) : bool :=
  match e with
  | siridb_incref _ | siridb_decref _ | uv _ => false
  | uv_mutex_lock m | uv_mutex_unlock m | llist2slist m =>
      bool_decide (m ≠ siridb_mutex)
  | _ => true
  end.

(** Every [siridb_server_connect] of a trace is made in a state where the
    condition of lines 102-104 holds. *)
Fixpoint connects_justified (connector : siri_t → siridb_ptr → server_ptr → siri_t)
    (status_at : nat → siri_heartbeat_status_t)
    (st : wstate) (evs : list event) : Prop :=
  match evs with
  | [] => True
  | e :: evs' =>
      match e with
      | siridb_server_connect d s => connect_allowed status_at st d s
      | _ => True
      end
      ∧ connects_justified connector status_at (advance connector st [e]) evs'
  end.

(** A computation of the worker leaves the state its calls lead to. *)
Definition tracked (connector : siri_t → siridb_ptr → server_ptr → siri_t)
    {A} (m : M wstate A) : Prop :=
  ∀ st, final (m st) = advance connector st (trace (m st)).

(** ** Concrete stores and schedules *)

Module Sample.

(** A connector that gives the server a socket. *)
Definition connector (w : siri_t) (siridb : siridb_ptr) (srv : server_ptr) : siri_t :=
  {| siridb_list := siridb_list w;
     siridb_at := siridb_at w;
     server_at := λ x, if decide (x = srv) then {| socket := Some 1%nat |}
                       else server_at w x |}.

Definition always (v : siri_heartbeat_status_t) : nat → siri_heartbeat_status_t := λ _, v.

(** [siri_heartbeat_cancel] takes effect once the worker has made [n] calls. *)
Definition cancelled_from (n : nat) : nat → siri_heartbeat_status_t := λ t,
  if decide (t < n)%nat then SIRI_HEARTBEAT_RUNNING else SIRI_HEARTBEAT_CANCELLED.

(** Database [d] has the servers [10d] (the local node), [10d+1]
    (connected) and [10d+2] (not connected). *)
Definition three_servers (d : siridb_ptr) : siridb_t :=
  {| dbname := "cluster";
     servers := [10 * d; 10 * d + 1; 10 * d + 2]%nat;
     server := (10 * d)%nat |}.

Definition one_open (s : server_ptr) : siridb_server_t :=
  {| socket := if decide (s `mod` 10 = 1)%nat then Some 7%nat else None |}.

Definition cluster (dbs : list siridb_ptr) : siri_t :=
  {| siridb_list := dbs; siridb_at := three_servers; server_at := one_open |}.

(** The same, every peer connected. *)
Definition all_open (s : server_ptr) : siridb_server_t := {| socket := Some 7%nat |}.

Definition healthy (dbs : list siridb_ptr) : siri_t :=
  {| siridb_list := dbs; siridb_at := three_servers; server_at := all_open |}.

Definition at_start (w : siri_t) : wstate := {| shared := w; clock := 0 |}.

Definition idle : main_state :=
  {| heartbeat := {| status := SIRI_HEARTBEAT_PENDING; start := 0 |};
     siri_heartbeat := true |}.

Definition busy : main_state :=
  {| heartbeat := {| status := SIRI_HEARTBEAT_RUNNING; start := 100 |};
     siri_heartbeat := true |}.

Definition stopped : main_state :=
  {| heartbeat := {| status := SIRI_HEARTBEAT_CANCELLED; start := 100 |};
     siri_heartbeat := true |}.

Definition blank : main_state :=
  {| heartbeat := {| status := SIRI_HEARTBEAT_PENDING; start := 0 |};
     siri_heartbeat := false |}.

(** libuv answering 0 to everything, and libuv unable to set up a timer
    (UV_ENOMEM is -12). *)
Definition uv_fine : uv_request → Z := λ _, 0.
Definition uv_no_timer : uv_request → Z := λ r,
  match r with uv_timer_init | uv_timer_start _ _ => -12 | _ => 0 end.

End Sample.

(** ** The shape of a run *)

(** One server's turn in the loop of lines 98-111: the connect, when the
    condition of the [if] held, then the decrement. *)
Definition server_turn (siridb : siridb_ptr) (turn : server_ptr * bool) : list event :=
  (if turn.2 then [siridb_server_connect siridb turn.1] else [])
  ++ [siridb_server_decref turn.1].

(** One database's turn (lines 80-113): the snapshot of its servers, the
    second of sleep, the servers' turns, and the snapshot freed. *)
Definition siridb_turn (visit : siridb_ptr * list (server_ptr * bool)) : list event :=
  uv_mutex_lock (servers_mutex visit.1) :: llist2slist (servers_mutex visit.1)
  :: (siridb_server_incref <$> visit.2.*1)
  ++ uv_mutex_unlock (servers_mutex visit.1) :: sleep 1
  :: (visit.2 ≫= server_turn visit.1) ++ [slist_free].

(** A whole run over the snapshot [slsiridb]: the databases' snapshot, the
    turns of the databases entered, and one decrement per entry of the
    snapshot on the database entered last. *)
Definition run_shape (slsiridb : list siridb_ptr)
    (visits : list (siridb_ptr * list (server_ptr * bool))) : list event :=
  uv_mutex_lock siridb_mutex :: llist2slist siridb_mutex
  :: (siridb_incref <$> slsiridb)
  ++ uv_mutex_unlock siridb_mutex
  :: (visits ≫= siridb_turn)
  ++ match list.last visits with
     | Some visit => replicate (length slsiridb) (siridb_decref visit.1)
     | None => []
     end.

(** The seconds a trace sleeps. *)
Definition slept (evs : list event) : Z :=
  foldr (λ e z, match e with sleep n => n + z | _ => z end) 0 evs.

(** The references a trace holds, as multisets of handles: an increment
    adds one, a decrement takes one away. *)
Definition siridbs_step (held : gmultiset siridb_ptr) (e : event) : gmultiset siridb_ptr :=
  match e with
  | siridb_incref d => held ⊎ {[+ d +]}
  | siridb_decref d => held ∖ {[+ d +]}
  | _ => held
  end.

Definition servers_step (held : gmultiset server_ptr) (e : event) : gmultiset server_ptr :=
  match e with
  | siridb_server_incref s => held ⊎ {[+ s +]}
  | siridb_server_decref s => held ∖ {[+ s +]}
  | _ => held
  end.

Definition siridbs_held (evs : list event) : gmultiset siridb_ptr :=
  foldl siridbs_step ∅ evs.

Definition servers_held (evs : list event) : gmultiset server_ptr :=
  foldl servers_step ∅ evs.

(** A connect is made on a database and a server whose references are
    held, and a server is decremented only while its reference is held. *)
Definition refs_rule (dbs : gmultiset siridb_ptr) (srvs : gmultiset server_ptr)
    (e : event) : Prop :=
  match e with
  | siridb_server_connect d s => d ∈ dbs ∧ s ∈ srvs
  | siridb_server_decref s => s ∈ srvs
  | _ => True
  end.

Fixpoint refs_respected (dbs : gmultiset siridb_ptr) (srvs : gmultiset server_ptr)
    (evs : list event) : Prop :=
  match evs with
  | [] => True
  | e :: evs' =>
      refs_rule dbs srvs e
      ∧ refs_respected (siridbs_step dbs e) (servers_step srvs e) evs'
  end.

(** What must be held for a call: nothing for a lock and for every call
    outside a snapshot, the mutex itself for its unlock and for the copy of
    its list, the mutex of the list for an increment. *)
Definition lock_rule (held : list mutex) (e : event) : Prop :=
  match e with
  | uv_mutex_unlock m | llist2slist m => held = [m]
  | siridb_incref _ => held = [siridb_mutex]
  | siridb_server_incref _ => ∃ d, held = [servers_mutex d]
  | _ => held = []
  end.

Fixpoint lock_protocol (held : list mutex) (evs : list event) : Prop :=
  match evs with
  | [] => True
  | e :: evs' => lock_rule held e ∧ lock_protocol (locks_step held e) evs'
  end.

(** A peer that is due a connect in a store: not the database's own
    [server], and without a socket. *)
Definition due (w : siri_t) (siridb : siridb_ptr) (srv : server_ptr) : Prop :=
  srv ≠ server (siridb_at w siridb) ∧ socket (server_at w srv) = None.

#[global] Instance due_dec w siridb srv : Decision (due w siridb srv).
Proof. unfold due. apply _. Defined.

(** The connects due in a store for a list of databases: database by
    database, server by server, in the order of the lists. *)
Definition connects_due (w : siri_t) (slsiridb : list siridb_ptr)
    : list (siridb_ptr * server_ptr) :=
  slsiridb ≫= λ d, (λ s, (d, s)) <$> filter (due w d) (servers (siridb_at w d)).

(** A store that has the databases of [w] and, for the servers of [keep],
    their sockets. *)
Definition agrees (w w' : siri_t) (keep : list server_ptr) : Prop :=
  (∀ d, siridb_at w' d = siridb_at w d)
  ∧ ∀ s, s ∈ keep → socket (server_at w' s) = socket (server_at w s).

(** The completions among the events of the loop. *)
Definition is_work_done (e : loop_event) : bool :=
  match e with work_done _ _ => true | _ => false end.

Definition completions (es : list loop_event) : nat := length (filter is_work_done es).

(** * Properties *)

(** ** The monad *)

Lemma run_bind {S A B} (m : M S A) (f : A → M S B) (s : S) :
  (m ≫= f) s =
    (result (f (result (m s)) (final (m s))),
     final (f (result (m s)) (final (m s))),
     trace (m s) ++ trace (f (result (m s)) (final (m s)))).
Proof.
  unfold mbind, M_bind, result, final, trace.
  destruct (m s) as [[a s1] e1]; simpl.
  destruct (f a s1) as [[b s2] e2]; reflexivity.
Qed.

Lemma run_ret {S A} (a : A) (s : S) : (mret a : M S A) s = (a, s, []).
Proof. reflexivity. Qed.

(** ** The scheduler on the main thread *)

Section scheduler.
Variable uv_rc : uv_request → Z.

Lemma HEARTBEAT_cb_skips now s :
  status (heartbeat s) ≠ SIRI_HEARTBEAT_PENDING →
  HEARTBEAT_cb uv_rc now s = (tt, s, []).
Proof.
  intros Hs. destruct s as [[st t0] p]; simpl in Hs.
  destruct st; try congruence; reflexivity.
Qed.

Lemma HEARTBEAT_cb_starts now s :
  status (heartbeat s) = SIRI_HEARTBEAT_PENDING →
  HEARTBEAT_cb uv_rc now s =
    (tt,
     {| heartbeat := {| status := SIRI_HEARTBEAT_RUNNING; start := now |};
        siri_heartbeat := siri_heartbeat s |},
     [uv uv_queue_work]).
Proof.
  intros Hs. destruct s as [[st t0] p]; simpl in Hs; subst st. reflexivity.
Qed.

Lemma HEARTBEAT_work_finish_running work_status now s :
  status (heartbeat s) = SIRI_HEARTBEAT_RUNNING →
  HEARTBEAT_work_finish work_status now s =
    (tt,
     {| heartbeat := {| status := SIRI_HEARTBEAT_PENDING; start := start (heartbeat s) |};
        siri_heartbeat := siri_heartbeat s |},
     []).
Proof.
  intros Hs. destruct s as [[st t0] p]; simpl in Hs; subst st. reflexivity.
Qed.

Lemma HEARTBEAT_work_finish_other work_status now s :
  status (heartbeat s) ≠ SIRI_HEARTBEAT_RUNNING →
  HEARTBEAT_work_finish work_status now s = (tt, s, []).
Proof.
  intros Hs. destruct s as [[st t0] p]; simpl in Hs.
  destruct st; try congruence; reflexivity.
Qed.

Lemma siri_heartbeat_cancel_eq s :
  siri_heartbeat_cancel uv_rc s =
    (tt,
     {| heartbeat := {| status := SIRI_HEARTBEAT_CANCELLED; start := start (heartbeat s) |};
        siri_heartbeat := siri_heartbeat s |},
     [uv uv_cancel]).
Proof. reflexivity. Qed.

Lemma siri_heartbeat_init_eq heartbeat_interval s :
  siri_heartbeat_init uv_rc heartbeat_interval s =
    (tt,
     {| heartbeat := {| status := SIRI_HEARTBEAT_PENDING; start := start (heartbeat s) |};
        siri_heartbeat := true |},
     [uv uv_timer_init;
      uv (uv_timer_start (uint64 (heartbeat_interval * 1000))
                         (uint64 (heartbeat_interval * 1000)))]).
Proof. reflexivity. Qed.

End scheduler.

Lemma queued_app (a b : list event) : queued (a ++ b) = (queued a + queued b)%nat.
Proof. unfold queued. rewrite filter_app, length_app. reflexivity. Qed.

Lemma queued_nil : queued [] = 0%nat.
Proof. reflexivity. Qed.

Lemma queued_queue_work : queued [uv uv_queue_work] = 1%nat.
Proof. reflexivity. Qed.

Lemma queued_cancel : queued [uv uv_cancel] = 0%nat.
Proof. reflexivity. Qed.

Lemma uint64_small (z : Z) : 0 ≤ z < 2 ^ 64 → uint64 z = z.
Proof. intros Hz. unfold uint64. apply Z.mod_small. exact Hz. Qed.

Section event_loop.
Variable uv_rc : uv_request → Z.

(** One step of the loop keeps: at most one request in flight, and none
    while the status is PENDING. *)
Lemma loop_step_keeps s e :
  (in_flight s ≤ 1)%nat
  ∧ (status (heartbeat (main s)) = SIRI_HEARTBEAT_PENDING → in_flight s = 0%nat) →
  (in_flight (loop_step uv_rc s e).1 ≤ 1)%nat
  ∧ (status (heartbeat (main (loop_step uv_rc s e).1)) = SIRI_HEARTBEAT_PENDING →
     in_flight (loop_step uv_rc s e).1 = 0%nat).
Proof.
  intros [Hle Hidle]. destruct e as [now | work_status now | ]; unfold loop_step.
  - destruct (decide (status (heartbeat (main s)) = SIRI_HEARTBEAT_PENDING)) as [Hp | Hp].
    + rewrite (HEARTBEAT_cb_starts uv_rc now _ Hp). unfold after; simpl.
      rewrite (Hidle Hp), queued_queue_work. split; [lia | discriminate].
    + rewrite (HEARTBEAT_cb_skips uv_rc now _ Hp). unfold after; simpl.
      rewrite queued_nil. split; [lia | intros H; contradiction].
  - destruct (in_flight s) as [ | n] eqn:Hn.
    + simpl. rewrite Hn. split; [lia | reflexivity].
    + assert (n = 0%nat) as -> by lia.
      destruct (decide (status (heartbeat (main s)) = SIRI_HEARTBEAT_RUNNING)) as [Hr | Hr].
      * rewrite (HEARTBEAT_work_finish_running work_status now _ Hr). unfold after; simpl.
        rewrite queued_nil. split; [lia | reflexivity].
      * rewrite (HEARTBEAT_work_finish_other work_status now _ Hr). unfold after; simpl.
        rewrite queued_nil. split; [lia | intros _; reflexivity].
  - rewrite siri_heartbeat_cancel_eq. unfold after; simpl.
    rewrite queued_cancel. split; [lia | discriminate].
Qed.

Lemma loop_run_keeps es : ∀ s,
  (in_flight s ≤ 1)%nat
  ∧ (status (heartbeat (main s)) = SIRI_HEARTBEAT_PENDING → in_flight s = 0%nat) →
  (in_flight (loop_run uv_rc s es).1 ≤ 1)%nat
  ∧ (status (heartbeat (main (loop_run uv_rc s es).1)) = SIRI_HEARTBEAT_PENDING →
     in_flight (loop_run uv_rc s es).1 = 0%nat).
Proof.
  induction es as [ | e es IH]; intros s Hs; [exact Hs | ].
  simpl. pose proof (loop_step_keeps s e Hs) as Hstep.
  destruct (loop_step uv_rc s e) as [s1 t1]. simpl in Hstep.
  specialize (IH s1 Hstep).
  destruct (loop_run uv_rc s1 es) as [s2 t2]. exact IH.
Qed.

(** A step from CANCELLED stays there, queues nothing, and does not add
    to the requests in flight. *)
Lemma loop_step_cancelled s e :
  status (heartbeat (main s)) = SIRI_HEARTBEAT_CANCELLED →
  status (heartbeat (main (loop_step uv_rc s e).1)) = SIRI_HEARTBEAT_CANCELLED
  ∧ queued (loop_step uv_rc s e).2 = 0%nat
  ∧ (in_flight (loop_step uv_rc s e).1 ≤ in_flight s)%nat.
Proof.
  intros Hc.
  assert (status (heartbeat (main s)) ≠ SIRI_HEARTBEAT_PENDING) as Hp by congruence.
  assert (status (heartbeat (main s)) ≠ SIRI_HEARTBEAT_RUNNING) as Hr by congruence.
  destruct e as [now | work_status now | ]; unfold loop_step.
  - rewrite (HEARTBEAT_cb_skips uv_rc now _ Hp). unfold after; simpl.
    rewrite queued_nil. repeat split; [exact Hc | lia].
  - destruct (in_flight s) as [ | n] eqn:Hn.
    + simpl. repeat split; [exact Hc | lia].
    + rewrite (HEARTBEAT_work_finish_other work_status now _ Hr). unfold after; simpl.
      rewrite queued_nil. repeat split; [exact Hc | lia].
  - rewrite siri_heartbeat_cancel_eq. unfold after; simpl.
    rewrite queued_cancel. repeat split. lia.
Qed.

End event_loop.

(** C2: at most one work request is in flight after any sequence of timer
    fires, completions and cancels that follows [siri_heartbeat_init]; a
    timer fire with a status other than PENDING changes nothing and queues
    nothing; a fire with status PENDING sets RUNNING and queues exactly one
    request. *)
Theorem timer_fire_starts_at_most_one uv_rc heartbeat_interval s0 es now s :
  (in_flight (loop_run uv_rc (boot uv_rc heartbeat_interval s0) es).1 ≤ 1)%nat
  ∧ (status (heartbeat s) ≠ SIRI_HEARTBEAT_PENDING →
     HEARTBEAT_cb uv_rc now s = (tt, s, [])
     ∧ queued (trace (HEARTBEAT_cb uv_rc now s)) = 0%nat)
  ∧ (status (heartbeat s) = SIRI_HEARTBEAT_PENDING →
     status (heartbeat (final (HEARTBEAT_cb uv_rc now s))) = SIRI_HEARTBEAT_RUNNING
     ∧ queued (trace (HEARTBEAT_cb uv_rc now s)) = 1%nat).
Proof.
  split; [ | split].
  - apply loop_run_keeps. simpl. split; [lia | reflexivity].
  - intros Hs. rewrite (HEARTBEAT_cb_skips uv_rc now s Hs). split; reflexivity.
  - intros Hs. rewrite (HEARTBEAT_cb_starts uv_rc now s Hs). split; reflexivity.
Qed.

Lemma timer_fire_starts_at_most_one_witness :
  (in_flight (loop_run Sample.uv_fine (boot Sample.uv_fine 30 Sample.blank)
                [timer_fires 1; timer_fires 2; work_done 0 3; timer_fires 4]).1 ≤ 1)%nat
  ∧ HEARTBEAT_cb Sample.uv_fine 5 Sample.busy = (tt, Sample.busy, [])
  ∧ status (heartbeat (final (HEARTBEAT_cb Sample.uv_fine 5 Sample.idle)))
    = SIRI_HEARTBEAT_RUNNING
  ∧ queued (trace (HEARTBEAT_cb Sample.uv_fine 5 Sample.idle)) = 1%nat.
Proof.
  pose proof (timer_fire_starts_at_most_one Sample.uv_fine 30 Sample.blank
                [timer_fires 1; timer_fires 2; work_done 0 3; timer_fires 4]
                5 Sample.busy) as (Hone & Hskip & _).
  pose proof (timer_fire_starts_at_most_one Sample.uv_fine 30 Sample.blank [] 5 Sample.idle)
    as (_ & _ & Hstart).
  split; [exact Hone | split].
  - apply Hskip. discriminate.
  - apply Hstart. reflexivity.
Defined.

(** C3: [HEARTBEAT_work_finish] turns RUNNING into PENDING and changes
    nothing for any other status, so the status changes exactly when it was
    RUNNING and CANCELLED stays CANCELLED; what libuv reports about the run
    has no part in it. *)
Theorem work_finish_reconciles work_status now s :
  (status (heartbeat s) = SIRI_HEARTBEAT_RUNNING →
   status (heartbeat (final (HEARTBEAT_work_finish work_status now s)))
   = SIRI_HEARTBEAT_PENDING)
  ∧ (status (heartbeat s) ≠ SIRI_HEARTBEAT_RUNNING →
     final (HEARTBEAT_work_finish work_status now s) = s)
  ∧ (status (heartbeat s) = SIRI_HEARTBEAT_CANCELLED →
     status (heartbeat (final (HEARTBEAT_work_finish work_status now s)))
     = SIRI_HEARTBEAT_CANCELLED)
  ∧ (status (heartbeat (final (HEARTBEAT_work_finish work_status now s)))
     ≠ status (heartbeat s)
     ↔ status (heartbeat s) = SIRI_HEARTBEAT_RUNNING)
  ∧ (∀ work_status' now',
       HEARTBEAT_work_finish work_status' now' s
       = HEARTBEAT_work_finish work_status now s).
Proof.
  destruct (decide (status (heartbeat s) = SIRI_HEARTBEAT_RUNNING)) as [Hr | Hr].
  - rewrite (HEARTBEAT_work_finish_running work_status now s Hr). simpl.
    split; [reflexivity | split; [congruence | split; [congruence | split]]].
    + rewrite Hr. split; [reflexivity | discriminate].
    + intros ws' now'. apply HEARTBEAT_work_finish_running. exact Hr.
  - rewrite (HEARTBEAT_work_finish_other work_status now s Hr). simpl.
    split; [congruence | split; [reflexivity | split; [congruence | split]]].
    + split; [congruence | contradiction].
    + intros ws' now'. apply HEARTBEAT_work_finish_other. exact Hr.
Qed.

Lemma work_finish_reconciles_witness :
  status (heartbeat (final (HEARTBEAT_work_finish 0 160 Sample.busy)))
  = SIRI_HEARTBEAT_PENDING
  ∧ final (HEARTBEAT_work_finish 0 160 Sample.idle) = Sample.idle
  ∧ status (heartbeat (final (HEARTBEAT_work_finish (-125) 160 Sample.stopped)))
    = SIRI_HEARTBEAT_CANCELLED.
Proof.
  pose proof (work_finish_reconciles 0 160 Sample.busy) as (Hrun & _).
  pose proof (work_finish_reconciles 0 160 Sample.idle) as (_ & Hkeep & _).
  pose proof (work_finish_reconciles (-125) 160 Sample.stopped) as (_ & _ & Hstop & _).
  split; [ | split].
  - apply Hrun. reflexivity.
  - apply Hkeep. discriminate.
  - apply Hstop. reflexivity.
Defined.

(** C4: from a state whose status is CANCELLED, whatever sequence of timer
    fires, completions and cancels follows, the status is still CANCELLED,
    no work request is queued, and the number in flight does not grow. *)
Theorem cancelled_is_terminal uv_rc es : ∀ s,
  status (heartbeat (main s)) = SIRI_HEARTBEAT_CANCELLED →
  status (heartbeat (main (loop_run uv_rc s es).1)) = SIRI_HEARTBEAT_CANCELLED
  ∧ queued (loop_run uv_rc s es).2 = 0%nat
  ∧ (in_flight (loop_run uv_rc s es).1 ≤ in_flight s)%nat.
Proof.
  induction es as [ | e es IH]; intros s Hc; simpl.
  - repeat split; [exact Hc | lia].
  - destruct (loop_step_cancelled uv_rc s e Hc) as (Hc1 & Hq1 & Hn1).
    destruct (loop_step uv_rc s e) as [s1 t1]. simpl in Hc1, Hq1, Hn1.
    destruct (IH s1 Hc1) as (Hc2 & Hq2 & Hn2).
    destruct (loop_run uv_rc s1 es) as [s2 t2]. simpl in Hc2, Hq2, Hn2 |- *.
    rewrite queued_app, Hq1, Hq2. repeat split; [exact Hc2 | lia].
Qed.

Lemma cancelled_is_terminal_witness :
  let s := (loop_run Sample.uv_fine (boot Sample.uv_fine 30 Sample.blank)
              [timer_fires 1; cancel_called]).1 in
  let es := [timer_fires 2; work_done 0 3; timer_fires 4; cancel_called; timer_fires 5] in
  status (heartbeat (main s)) = SIRI_HEARTBEAT_CANCELLED
  ∧ status (heartbeat (main (loop_run Sample.uv_fine s es).1)) = SIRI_HEARTBEAT_CANCELLED
  ∧ queued (loop_run Sample.uv_fine s es).2 = 0%nat
  ∧ (in_flight (loop_run Sample.uv_fine s es).1 ≤ in_flight s)%nat.
Proof.
  split; [reflexivity | ].
  apply (cancelled_is_terminal Sample.uv_fine
           [timer_fires 2; work_done 0 3; timer_fires 4; cancel_called; timer_fires 5]).
  reflexivity.
Defined.

(** C8, as stated, fails: when libuv cannot set up the timer,
    [siri_heartbeat_init] gives its caller exactly what it gives when libuv
    succeeds.  It returns nothing, leaves the status PENDING and still asks
    for the timer to be started. *)
Lemma init_timer_failure_not_surfaced :
  Sample.uv_no_timer uv_timer_init ≠ 0
  ∧ siri_heartbeat_init Sample.uv_no_timer 30 Sample.blank
    = siri_heartbeat_init Sample.uv_fine 30 Sample.blank
  ∧ status (heartbeat (final (siri_heartbeat_init Sample.uv_no_timer 30 Sample.blank)))
    = SIRI_HEARTBEAT_PENDING
  ∧ trace (siri_heartbeat_init Sample.uv_no_timer 30 Sample.blank)
    = [uv uv_timer_init; uv (uv_timer_start 30000 30000)].
Proof. repeat split. discriminate. Qed.

(** C8, amended: [siri_heartbeat_init] sets [siri->heartbeat], sets the
    status to PENDING, and asks libuv to initialise the timer and to start
    it with first timeout and repeat both [heartbeat_interval * 1000]
    (as a [uint64_t]; the product itself for a 16-bit interval).  It has no
    failure path: whatever libuv answers, the outcome is the same. *)
Theorem init_sets_pending_and_starts_timer uv_rc heartbeat_interval s :
  final (siri_heartbeat_init uv_rc heartbeat_interval s)
  = {| heartbeat := {| status := SIRI_HEARTBEAT_PENDING; start := start (heartbeat s) |};
       siri_heartbeat := true |}
  ∧ trace (siri_heartbeat_init uv_rc heartbeat_interval s)
    = [uv uv_timer_init;
       uv (uv_timer_start (uint64 (heartbeat_interval * 1000))
                          (uint64 (heartbeat_interval * 1000)))]
  ∧ (0 ≤ heartbeat_interval < 2 ^ 16 →
     uint64 (heartbeat_interval * 1000) = heartbeat_interval * 1000)
  ∧ (∀ uv_rc', siri_heartbeat_init uv_rc' heartbeat_interval s
               = siri_heartbeat_init uv_rc heartbeat_interval s).
Proof.
  rewrite siri_heartbeat_init_eq. simpl.
  split; [reflexivity | split; [reflexivity | split]].
  - intros Hi. apply uint64_small. lia.
  - intros uv_rc'. apply siri_heartbeat_init_eq.
Qed.

Lemma init_sets_pending_and_starts_timer_witness :
  status (heartbeat (final (siri_heartbeat_init Sample.uv_fine 30 Sample.stopped)))
  = SIRI_HEARTBEAT_PENDING
  ∧ trace (siri_heartbeat_init Sample.uv_fine 30 Sample.stopped)
    = [uv uv_timer_init; uv (uv_timer_start 30000 30000)]
  ∧ uint64 (30 * 1000) = 30 * 1000.
Proof.
  pose proof (init_sets_pending_and_starts_timer Sample.uv_fine 30 Sample.stopped)
    as (Hfinal & Htrace & Hsmall & _).
  split; [rewrite Hfinal; reflexivity | split; [exact Htrace | ]].
  apply Hsmall. lia.
Defined.






(** ** The worker: how a run is put together *)

Section worker_facts.
Variable connector : siri_t → siridb_ptr → server_ptr → siri_t.
Variable status_at : nat → siri_heartbeat_status_t.

Local Abbreviation advance := (advance connector).
Local Abbreviation tracked := (tracked connector).
Local Abbreviation call := (call connector).

Lemma advance_app st a b : advance st (a ++ b) = advance (advance st a) b.
Proof. apply foldl_app. Qed.

Lemma advance_clock st evs : clock (advance st evs) = (clock st + length evs)%nat.
Proof.
  revert st. induction evs as [ | e evs IH]; intros st; simpl.
  - lia.
  - rewrite IH. simpl. lia.
Qed.

(** Calls other than [siridb_server_connect] leave the store alone. *)
Lemma advance_shared st evs :
  connects evs = [] → shared (advance st evs) = shared st.
Proof.
  revert st. induction evs as [ | e evs IH]; intros st Hc; [reflexivity | ].
  simpl. destruct e; simpl in Hc; try discriminate; rewrite (IH _ Hc); reflexivity.
Qed.

Lemma tracked_ret {A} (a : A) : tracked (mret a).
Proof. intros st. reflexivity. Qed.

Lemma tracked_skip : tracked skip.
Proof. intros st. reflexivity. Qed.

Lemma tracked_call e : tracked (call e).
Proof. intros st. reflexivity. Qed.

Lemma tracked_read {A} (f : siri_t → A) : tracked (read f).
Proof. intros [w t]. reflexivity. Qed.

Lemma tracked_heartbeat_status : tracked (heartbeat_status status_at).
Proof. intros [w t]. reflexivity. Qed.

Lemma tracked_bind {A B} (m : M wstate A) (f : A → M wstate B) :
  tracked m → (∀ a, tracked (f a)) → tracked (m ≫= f).
Proof.
  intros Hm Hf st. rewrite run_bind. simpl.
  rewrite advance_app, <- Hm. apply Hf.
Qed.

Lemma tracked_for_each {A} (l : list A) (body : A → M wstate unit) :
  (∀ x, tracked (body x)) → tracked (for_each l body).
Proof.
  intros Hb. induction l as [ | x l IH]; simpl.
  - apply tracked_ret.
  - apply tracked_bind; [apply Hb | intros _; exact IH].
Qed.

(** A loop whose body is one call. *)
Lemma for_each_calls {A} (f : A → event) (l : list A) st :
  for_each l (λ x, call (f x)) st = (tt, advance st (f <$> l), f <$> l).
Proof.
  revert st. induction l as [ | x l IH]; intros st; [reflexivity | ].
  simpl for_each. rewrite run_bind, IH. reflexivity.
Qed.

Lemma snapshot_siridb_result st :
  result (snapshot_siridb connector st) = siridb_list (shared st).
Proof.
  unfold snapshot_siridb. rewrite !run_bind. simpl. reflexivity.
Qed.

Lemma snapshot_siridb_trace st :
  trace (snapshot_siridb connector st) =
    uv_mutex_lock siridb_mutex :: llist2slist siridb_mutex
      :: (siridb_incref <$> siridb_list (shared st)) ++ [uv_mutex_unlock siridb_mutex].
Proof.
  unfold snapshot_siridb. rewrite !run_bind. simpl.
  rewrite for_each_calls. reflexivity.
Qed.

Lemma snapshot_servers_result siridb st :
  result (snapshot_servers connector siridb st) = servers (siridb_at (shared st) siridb).
Proof.
  unfold snapshot_servers. rewrite !run_bind. simpl. reflexivity.
Qed.

Lemma snapshot_servers_trace siridb st :
  trace (snapshot_servers connector siridb st) =
    uv_mutex_lock (servers_mutex siridb) :: llist2slist (servers_mutex siridb)
      :: (siridb_server_incref <$> servers (siridb_at (shared st) siridb))
      ++ [uv_mutex_unlock (servers_mutex siridb)].
Proof.
  unfold snapshot_servers. rewrite !run_bind. simpl.
  rewrite for_each_calls. reflexivity.
Qed.

(** The condition of the [if] is [connect_allowed], and reading it makes
    no call. *)
Lemma must_connect_eq siridb srv st :
  must_connect status_at siridb srv st
  = (bool_decide (connect_allowed status_at st siridb srv), st, []).
Proof.
  unfold must_connect, connect_allowed. destruct st as [w t].
  rewrite run_bind. simpl.
  destruct (decide (srv ≠ server (siridb_at w siridb))) as [Hself | Hself].
  - rewrite run_bind. simpl.
    destruct (decide (status_at t ≠ SIRI_HEARTBEAT_CANCELLED)) as [Hst | Hst].
    + rewrite run_bind. simpl. f_equal. f_equal.
      apply bool_decide_ext. tauto.
    + simpl. f_equal. f_equal. symmetry. apply bool_decide_eq_false. tauto.
  - simpl. f_equal. f_equal. symmetry. apply bool_decide_eq_false. tauto.
Qed.

Lemma visit_server_trace siridb srv st :
  trace (visit_server connector status_at siridb srv st) =
    (if bool_decide (connect_allowed status_at st siridb srv)
     then [siridb_server_connect siridb srv] else [])
    ++ [siridb_server_decref srv].
Proof.
  unfold visit_server. rewrite run_bind, must_connect_eq. simpl.
  rewrite run_bind. simpl.
  destruct (bool_decide (connect_allowed status_at st siridb srv)); reflexivity.
Qed.

Lemma tracked_snapshot_siridb : tracked (snapshot_siridb connector).
Proof.
  unfold snapshot_siridb.
  repeat first [ apply tracked_bind; [ | intros ? ] | apply tracked_call
               | apply tracked_read | apply tracked_ret
               | apply tracked_for_each; intros ? ].
Qed.

Lemma tracked_snapshot_servers siridb : tracked (snapshot_servers connector siridb).
Proof.
  unfold snapshot_servers.
  repeat first [ apply tracked_bind; [ | intros ? ] | apply tracked_call
               | apply tracked_read | apply tracked_ret
               | apply tracked_for_each; intros ? ].
Qed.

Lemma tracked_must_connect siridb srv : tracked (must_connect status_at siridb srv).
Proof. intros st. rewrite must_connect_eq. reflexivity. Qed.

Lemma tracked_visit_server siridb srv :
  tracked (visit_server connector status_at siridb srv).
Proof.
  unfold visit_server.
  apply tracked_bind; [apply tracked_must_connect | intros go].
  apply tracked_bind; [ | intros _; apply tracked_call].
  destruct go; [apply tracked_call | apply tracked_skip].
Qed.

Lemma tracked_visit_siridb siridb : tracked (visit_siridb connector status_at siridb).
Proof.
  unfold visit_siridb.
  apply tracked_bind; [apply tracked_snapshot_servers | intros slservers].
  apply tracked_bind; [apply tracked_call | intros _].
  apply tracked_bind; [ | intros _; apply tracked_call].
  apply tracked_for_each. intros srv. apply tracked_visit_server.
Qed.

Lemma tracked_visit_all slsiridb : ∀ siridb,
  tracked (visit_all connector status_at slsiridb siridb).
Proof.
  induction slsiridb as [ | d rest IH]; intros siridb; simpl.
  - apply tracked_ret.
  - apply tracked_bind; [apply tracked_visit_siridb | intros _].
    apply tracked_bind; [apply tracked_heartbeat_status | intros st].
    destruct (decide (st = SIRI_HEARTBEAT_CANCELLED)); [apply tracked_ret | apply IH].
Qed.

Lemma tracked_release_all slsiridb siridb :
  tracked (release_all connector slsiridb siridb).
Proof.
  unfold release_all. apply tracked_for_each. intros _.
  destruct siridb; [apply tracked_call | apply tracked_skip].
Qed.

Lemma tracked_HEARTBEAT_work : tracked (HEARTBEAT_work connector status_at).
Proof.
  unfold HEARTBEAT_work.
  apply tracked_bind; [apply tracked_snapshot_siridb | intros slsiridb].
  apply tracked_bind; [apply tracked_visit_all | intros siridb].
  apply tracked_release_all.
Qed.

(** The run, cut into its three parts. *)
Lemma HEARTBEAT_work_trace st :
  let snap := snapshot_siridb connector st in
  let loop := visit_all connector status_at (siridb_list (shared st)) None (final snap) in
  trace (HEARTBEAT_work connector status_at st) =
    trace snap ++ trace loop
    ++ trace (release_all connector (siridb_list (shared st)) (result loop) (final loop)).
Proof.
  simpl. unfold HEARTBEAT_work. rewrite run_bind. simpl.
  rewrite run_bind. simpl. rewrite snapshot_siridb_result. reflexivity.
Qed.

(** *** Every connect is justified *)

Lemma justified_app st a : ∀ b,
  connects_justified connector status_at st (a ++ b)
  ↔ connects_justified connector status_at st a
    ∧ connects_justified connector status_at (advance st a) b.
Proof.
  revert st. induction a as [ | e a IH]; intros st b; simpl.
  - tauto.
  - rewrite IH. tauto.
Qed.

Lemma justified_quiet st evs :
  connects evs = [] → connects_justified connector status_at st evs.
Proof.
  revert st. induction evs as [ | e evs IH]; intros st Hc; simpl; [exact I | ].
  destruct e; simpl in Hc; try discriminate; (split; [exact I | apply IH; exact Hc]).
Qed.

Lemma connects_app a b : connects (a ++ b) = connects a ++ connects b.
Proof. apply omap_app. Qed.

Lemma connects_calls {A} (f : A → event) (l : list A) :
  (∀ x, connects [f x] = []) → connects (f <$> l) = [].
Proof.
  intros Hf. induction l as [ | x l IH]; [reflexivity | ].
  change (f <$> x :: l) with ([f x] ++ (f <$> l)).
  rewrite connects_app, Hf, IH. reflexivity.
Qed.

Lemma connects_snapshot_siridb st : connects (trace (snapshot_siridb connector st)) = [].
Proof.
  rewrite snapshot_siridb_trace. simpl. rewrite connects_app, connects_calls; reflexivity.
Qed.

Lemma connects_snapshot_servers siridb st :
  connects (trace (snapshot_servers connector siridb st)) = [].
Proof.
  rewrite snapshot_servers_trace. simpl. rewrite connects_app, connects_calls; reflexivity.
Qed.

Lemma release_all_trace slsiridb siridb st :
  trace (release_all connector slsiridb siridb st)
  = match siridb with
    | Some d => replicate (length slsiridb) (siridb_decref d)
    | None => []
    end.
Proof.
  unfold release_all. destruct siridb as [d | ].
  - rewrite (for_each_calls (λ _, siridb_decref d)). simpl.
    apply const_fmap. reflexivity.
  - revert st. induction slsiridb as [ | x l IH]; intros st; [reflexivity | ].
    simpl for_each. rewrite run_bind. simpl. apply IH.
Qed.

Lemma connects_release_all slsiridb siridb st :
  connects (trace (release_all connector slsiridb siridb st)) = [].
Proof.
  rewrite release_all_trace. destruct siridb as [d | ]; [ | reflexivity].
  induction (length slsiridb) as [ | n IH]; [reflexivity | exact IH].
Qed.

Lemma justified_bind {A B} (m : M wstate A) (f : A → M wstate B) st :
  tracked m →
  connects_justified connector status_at st (trace (m st)) →
  (∀ a st', connects_justified connector status_at st' (trace (f a st'))) →
  connects_justified connector status_at st (trace ((m ≫= f) st)).
Proof.
  intros Hm Hj Hf. rewrite run_bind. simpl.
  apply justified_app. split; [exact Hj | ]. rewrite <- Hm. apply Hf.
Qed.

Lemma justified_for_each {A} (l : list A) (body : A → M wstate unit) :
  (∀ x, tracked (body x)) →
  (∀ x st, connects_justified connector status_at st (trace (body x st))) →
  ∀ st, connects_justified connector status_at st (trace (for_each l body st)).
Proof.
  intros Ht Hb. induction l as [ | x l IH]; intros st; simpl for_each.
  - exact I.
  - apply justified_bind; [apply Ht | apply Hb | intros _; exact IH].
Qed.

Lemma justified_visit_server siridb srv st :
  connects_justified connector status_at st
    (trace (visit_server connector status_at siridb srv st)).
Proof.
  rewrite visit_server_trace.
  destruct (bool_decide (connect_allowed status_at st siridb srv)) eqn:Hgo; simpl.
  - apply bool_decide_eq_true in Hgo. tauto.
  - tauto.
Qed.

Lemma justified_visit_siridb siridb st :
  connects_justified connector status_at st
    (trace (visit_siridb connector status_at siridb st)).
Proof.
  unfold visit_siridb.
  apply justified_bind; [apply tracked_snapshot_servers | | intros slservers st1].
  { apply justified_quiet, connects_snapshot_servers. }
  apply justified_bind; [apply tracked_call | simpl; tauto | intros _ st2].
  apply justified_bind; [ | | intros _ st3; simpl; tauto].
  - apply tracked_for_each. intros srv. apply tracked_visit_server.
  - apply justified_for_each.
    + intros srv. apply tracked_visit_server.
    + intros srv st'. apply justified_visit_server.
Qed.

Lemma justified_visit_all slsiridb : ∀ siridb st,
  connects_justified connector status_at st
    (trace (visit_all connector status_at slsiridb siridb st)).
Proof.
  induction slsiridb as [ | d rest IH]; intros siridb st; simpl visit_all.
  - exact I.
  - apply justified_bind; [apply tracked_visit_siridb | apply justified_visit_siridb | ].
    intros _ st1.
    apply justified_bind; [apply tracked_heartbeat_status | exact I | ].
    intros s st2.
    destruct (decide (s = SIRI_HEARTBEAT_CANCELLED)); [exact I | apply IH].
Qed.

Lemma justified_HEARTBEAT_work st :
  connects_justified connector status_at st
    (trace (HEARTBEAT_work connector status_at st)).
Proof.
  unfold HEARTBEAT_work.
  apply justified_bind; [apply tracked_snapshot_siridb | | intros slsiridb st1].
  { apply justified_quiet, connects_snapshot_siridb. }
  apply justified_bind; [apply tracked_visit_all | apply justified_visit_all | ].
  intros siridb st2. apply justified_quiet, connects_release_all.
Qed.

End worker_facts.

(** C6: in every run, at the moment [siridb_server_connect] is called for
    a database and a server, that server is not the database's own
    [server], the status just read is not CANCELLED, and the server's
    [socket] is NULL.  The moment is the state the calls made before it
    lead to. *)
Theorem connect_only_when_allowed connector status_at st pre siridb srv post :
  trace (HEARTBEAT_work connector status_at st)
  = pre ++ siridb_server_connect siridb srv :: post →
  srv ≠ server (siridb_at (shared (advance connector st pre)) siridb)
  ∧ status_at (clock (advance connector st pre)) ≠ SIRI_HEARTBEAT_CANCELLED
  ∧ socket (server_at (shared (advance connector st pre)) srv) = None.
Proof.
  intros Hsplit.
  pose proof (justified_HEARTBEAT_work connector status_at st) as Hj.
  rewrite Hsplit in Hj. apply justified_app in Hj as [_ Hj].
  simpl in Hj. destruct Hj as [Hallowed _]. exact Hallowed.
Qed.

Lemma connect_only_when_allowed_witness :
  let st := Sample.at_start (Sample.cluster [1; 2]%nat) in
  let run := HEARTBEAT_work Sample.connector (Sample.always SIRI_HEARTBEAT_RUNNING) st in
  let before := advance Sample.connector st (take 26 (trace run)) in
  trace run = take 26 (trace run) ++ siridb_server_connect 2%nat 22%nat :: drop 27 (trace run)
  ∧ 22%nat ≠ server (siridb_at (shared before) 2%nat)
  ∧ Sample.always SIRI_HEARTBEAT_RUNNING (clock before) ≠ SIRI_HEARTBEAT_CANCELLED
  ∧ socket (server_at (shared before) 22%nat) = None.
Proof.
  split; [reflexivity | ].
  apply (connect_only_when_allowed Sample.connector
           (Sample.always SIRI_HEARTBEAT_RUNNING)
           (Sample.at_start (Sample.cluster [1; 2]%nat))
           (take 26 (trace (HEARTBEAT_work Sample.connector
                              (Sample.always SIRI_HEARTBEAT_RUNNING)
                              (Sample.at_start (Sample.cluster [1; 2]%nat)))))
           2%nat 22%nat
           (drop 27 (trace (HEARTBEAT_work Sample.connector
                              (Sample.always SIRI_HEARTBEAT_RUNNING)
                              (Sample.at_start (Sample.cluster [1; 2]%nat)))))).
  reflexivity.
Defined.

(** ** Nothing to connect *)

Section settled.
Variable connector : siri_t → siridb_ptr → server_ptr → siri_t.
Variable status_at : nat → siri_heartbeat_status_t.

(** A computation that connects nothing leaves the store as it was. *)
Lemma quiet_shared {A} (m : M wstate A) st :
  tracked connector m → connects (trace (m st)) = [] →
  shared (final (m st)) = shared st.
Proof. intros Hm Hq. rewrite Hm. apply advance_shared. exact Hq. Qed.

Lemma quiet_bind {A B} (m : M wstate A) (f : A → M wstate B) w st :
  shared st = w →
  tracked connector m →
  connects (trace (m st)) = [] →
  (∀ st', shared st' = w → connects (trace (f (result (m st)) st')) = []) →
  connects (trace ((m ≫= f) st)) = [].
Proof.
  intros Hw Hm Hq Hf. rewrite run_bind. simpl.
  rewrite connects_app, Hq. simpl. apply Hf.
  rewrite (quiet_shared m st Hm Hq). exact Hw.
Qed.

(** A server with a socket, and the local node, are passed over. *)
Lemma visit_server_settled siridb srv st :
  server_settled (shared st) siridb srv = true →
  trace (visit_server connector status_at siridb srv st) = [siridb_server_decref srv].
Proof.
  intros Hs. rewrite visit_server_trace.
  rewrite bool_decide_eq_false_2; [reflexivity | ].
  unfold connect_allowed. intros (Hself & _ & Hsock).
  unfold server_settled in Hs. apply orb_true_iff in Hs as [Hs | Hs].
  - apply bool_decide_eq_true in Hs. contradiction.
  - apply bool_decide_eq_true in Hs. contradiction.
Qed.

Lemma servers_loop_settled siridb w slservers : ∀ st,
  shared st = w →
  forallb (server_settled w siridb) slservers = true →
  connects (trace (for_each slservers (visit_server connector status_at siridb) st)) = [].
Proof.
  induction slservers as [ | srv rest IH]; intros st Hw Hall; [reflexivity | ].
  simpl in Hall. apply andb_true_iff in Hall as [Hsrv Hrest].
  simpl for_each.
  apply (quiet_bind _ _ w); [exact Hw | apply tracked_visit_server | | ].
  - rewrite visit_server_settled; [reflexivity | rewrite Hw; exact Hsrv].
  - intros st' Hw'. apply IH; assumption.
Qed.

Lemma visit_siridb_settled siridb w st :
  shared st = w →
  siridb_settled w siridb = true →
  connects (trace (visit_siridb connector status_at siridb st)) = [].
Proof.
  intros Hw Hall. unfold visit_siridb.
  apply (quiet_bind _ _ w);
    [exact Hw | apply tracked_snapshot_servers | apply connects_snapshot_servers | ].
  intros st1 Hw1. rewrite snapshot_servers_result, Hw.
  apply (quiet_bind _ _ w); [exact Hw1 | apply tracked_call | reflexivity | ].
  intros st2 Hw2.
  apply (quiet_bind _ _ w); [exact Hw2 | | | intros st3 _; reflexivity].
  - apply tracked_for_each. intros srv. apply tracked_visit_server.
  - apply (servers_loop_settled siridb w); assumption.
Qed.

Lemma visit_all_settled w slsiridb : ∀ siridb st,
  shared st = w →
  forallb (siridb_settled w) slsiridb = true →
  connects (trace (visit_all connector status_at slsiridb siridb st)) = [].
Proof.
  induction slsiridb as [ | d rest IH]; intros siridb st Hw Hall; [reflexivity | ].
  simpl in Hall. apply andb_true_iff in Hall as [Hd Hrest].
  simpl visit_all.
  apply (quiet_bind _ _ w); [exact Hw | apply tracked_visit_siridb | | ].
  - apply (visit_siridb_settled d w); assumption.
  - intros st1 Hw1.
    apply (quiet_bind _ _ w);
      [exact Hw1 | apply tracked_heartbeat_status | reflexivity | ].
    intros st2 Hw2.
    destruct (decide (result (heartbeat_status status_at st1) = SIRI_HEARTBEAT_CANCELLED));
      [reflexivity | apply IH; assumption].
Qed.

(** With every peer connected a run connects nothing and leaves the store
    as it found it. *)
Lemma HEARTBEAT_work_settled st :
  all_connected (shared st) = true →
  connects (trace (HEARTBEAT_work connector status_at st)) = []
  ∧ shared (final (HEARTBEAT_work connector status_at st)) = shared st.
Proof.
  intros Hall.
  assert (connects (trace (HEARTBEAT_work connector status_at st)) = []) as Hq.
  { unfold HEARTBEAT_work.
    apply (quiet_bind _ _ (shared st));
      [reflexivity | apply tracked_snapshot_siridb | apply connects_snapshot_siridb | ].
    intros st1 Hw1. rewrite snapshot_siridb_result.
    apply (quiet_bind _ _ (shared st)); [exact Hw1 | apply tracked_visit_all | | ].
    - apply (visit_all_settled (shared st)); [exact Hw1 | exact Hall].
    - intros st2 _. apply connects_release_all. }
  split; [exact Hq | ].
  apply quiet_shared; [apply tracked_HEARTBEAT_work | exact Hq].
Qed.

End settled.

(** C7: when every server of every listed database is the local node or
    has a socket, a run calls [siridb_server_connect] not once and leaves
    the store unchanged, so a second run right after it (at any later
    time) calls it not once either; and a server whose socket is not NULL
    is passed over with its decrement alone. *)
Theorem second_run_connects_nothing connector status_at w t1 t2 siridb srv st :
  (all_connected w = true →
   connects (trace (HEARTBEAT_work connector status_at {| shared := w; clock := t1 |})) = []
   ∧ shared (final (HEARTBEAT_work connector status_at {| shared := w; clock := t1 |})) = w
   ∧ connects (trace (HEARTBEAT_work connector status_at
                        {| shared := shared (final (HEARTBEAT_work connector status_at
                                                      {| shared := w; clock := t1 |}));
                           clock := t2 |})) = [])
  ∧ (socket (server_at (shared st) srv) ≠ None →
     trace (visit_server connector status_at siridb srv st) = [siridb_server_decref srv]).
Proof.
  split.
  - intros Hall.
    destruct (HEARTBEAT_work_settled connector status_at {| shared := w; clock := t1 |} Hall)
      as [Hq1 Hw1].
    simpl in Hw1. split; [exact Hq1 | split; [exact Hw1 | ]].
    rewrite Hw1.
    apply (HEARTBEAT_work_settled connector status_at {| shared := w; clock := t2 |} Hall).
  - intros Hsock. apply visit_server_settled. unfold server_settled.
    apply orb_true_iff. right. apply bool_decide_eq_true. exact Hsock.
Qed.

Lemma second_run_connects_nothing_witness :
  let w := Sample.healthy [1; 2; 3]%nat in
  let run1 := HEARTBEAT_work Sample.connector (Sample.always SIRI_HEARTBEAT_RUNNING)
                {| shared := w; clock := 0 |} in
  let run2 := HEARTBEAT_work Sample.connector (Sample.always SIRI_HEARTBEAT_RUNNING)
                {| shared := shared (final run1); clock := 100 |} in
  all_connected w = true
  ∧ connects (trace run1) = []
  ∧ connects (trace run2) = []
  ∧ trace (visit_server Sample.connector (Sample.always SIRI_HEARTBEAT_RUNNING)
             1%nat 11%nat (Sample.at_start (Sample.cluster [1]%nat)))
    = [siridb_server_decref 11].
Proof.
  pose proof (second_run_connects_nothing Sample.connector
                (Sample.always SIRI_HEARTBEAT_RUNNING)
                (Sample.healthy [1; 2; 3]%nat) 0 100 1%nat 11%nat
                (Sample.at_start (Sample.cluster [1]%nat))) as [Hruns Hskip].
  split; [reflexivity | ].
  destruct (Hruns eq_refl) as (Hq1 & _ & Hq2).
  split; [exact Hq1 | split; [exact Hq2 | ]].
  apply Hskip. discriminate.
Defined.

(** ** The mutexes *)

Lemma locks_after_app held a b :
  locks_after held (a ++ b) = locks_after (locks_after held a) b.
Proof. apply foldl_app. Qed.

Lemma guards_ok_app a : ∀ held b,
  guards_ok held (a ++ b) = guards_ok held a && guards_ok (locks_after held a) b.
Proof.
  induction a as [ | e a IH]; intros held b; simpl; [reflexivity | ].
  rewrite IH. apply andb_assoc.
Qed.

Lemma calm_nil : calm [].
Proof. split; reflexivity. Qed.

Lemma calm_app a b : calm a → calm b → calm (a ++ b).
Proof.
  intros [Ha Hla] [Hb Hlb]. unfold calm, locks_held in *.
  rewrite guards_ok_app, locks_after_app, Ha, Hla. split; assumption.
Qed.

(** A call that is neither a lock nor an unlock. *)
Lemma calm_call e :
  (∀ held, locks_step held e = held) → calm [e].
Proof.
  intros He. split; [reflexivity | ]. unfold locks_held. simpl. apply He.
Qed.

(** Snapshot calls under a held mutex. *)
Lemma guards_ok_calls {A} (f : A → event) (l : list A) held rest :
  (∀ x, snapshot_call (f x) = true) →
  (∀ x, locks_step held (f x) = held) →
  guards_ok held ((f <$> l) ++ rest) = guards_ok held rest
  ∧ locks_after held ((f <$> l) ++ rest) = locks_after held rest.
Proof.
  intros Hsnap Hstep. induction l as [ | x l [IHg IHl]]; [split; reflexivity | ].
  simpl. rewrite Hsnap, Hstep, orb_true_r. simpl. split; assumption.
Qed.

Lemma calm_snapshot {A} (m : mutex) (f : A → event) (l : list A) :
  (∀ x, snapshot_call (f x) = true) →
  (∀ x held, locks_step held (f x) = held) →
  calm (uv_mutex_lock m :: llist2slist m :: (f <$> l) ++ [uv_mutex_unlock m]).
Proof.
  intros Hsnap Hstep. unfold calm, locks_held. simpl.
  destruct (guards_ok_calls f l [m] [uv_mutex_unlock m] Hsnap (λ x, Hstep x [m]))
    as [Hg Hl].
  rewrite Hg. unfold locks_after in Hl |- *. rewrite Hl. simpl.
  rewrite filter_cons_False by (intros H; apply H; reflexivity).
  split; reflexivity.
Qed.

Section mutexes.
Variable connector : siri_t → siridb_ptr → server_ptr → siri_t.
Variable status_at : nat → siri_heartbeat_status_t.

Lemma calm_bind {A B} (m : M wstate A) (f : A → M wstate B) st :
  calm (trace (m st)) → (∀ a st', calm (trace (f a st'))) → calm (trace ((m ≫= f) st)).
Proof. intros Hm Hf. rewrite run_bind. simpl. apply calm_app; [exact Hm | apply Hf]. Qed.

Lemma calm_for_each {A} (l : list A) (body : A → M wstate unit) :
  (∀ x st, calm (trace (body x st))) → ∀ st, calm (trace (for_each l body st)).
Proof.
  intros Hb. induction l as [ | x l IH]; intros st; simpl for_each.
  - apply calm_nil.
  - apply calm_bind; [apply Hb | intros _; exact IH].
Qed.

Lemma calm_snapshot_siridb st : calm (trace (snapshot_siridb connector st)).
Proof. rewrite snapshot_siridb_trace. apply calm_snapshot; reflexivity. Qed.

Lemma calm_snapshot_servers siridb st :
  calm (trace (snapshot_servers connector siridb st)).
Proof. rewrite snapshot_servers_trace. apply calm_snapshot; reflexivity. Qed.

Lemma calm_visit_server siridb srv st :
  calm (trace (visit_server connector status_at siridb srv st)).
Proof.
  rewrite visit_server_trace.
  destruct (bool_decide (connect_allowed status_at st siridb srv)).
  - apply calm_app; apply calm_call; reflexivity.
  - apply calm_call; reflexivity.
Qed.

Lemma calm_visit_siridb siridb st :
  calm (trace (visit_siridb connector status_at siridb st)).
Proof.
  unfold visit_siridb.
  apply calm_bind; [apply calm_snapshot_servers | intros slservers st1].
  apply calm_bind; [apply calm_call; reflexivity | intros _ st2].
  apply calm_bind; [ | intros _ st3; apply calm_call; reflexivity].
  apply calm_for_each. intros srv st'. apply calm_visit_server.
Qed.

Lemma calm_visit_all slsiridb : ∀ siridb st,
  calm (trace (visit_all connector status_at slsiridb siridb st)).
Proof.
  induction slsiridb as [ | d rest IH]; intros siridb st; simpl visit_all.
  - apply calm_nil.
  - apply calm_bind; [apply calm_visit_siridb | intros _ st1].
    apply calm_bind; [apply calm_nil | intros s st2].
    destruct (decide (s = SIRI_HEARTBEAT_CANCELLED)); [apply calm_nil | apply IH].
Qed.

Lemma calm_release_all slsiridb siridb st :
  calm (trace (release_all connector slsiridb siridb st)).
Proof.
  unfold release_all. apply calm_for_each. intros _ st'.
  destruct siridb; [apply calm_call; reflexivity | apply calm_nil].
Qed.

Lemma calm_HEARTBEAT_work st : calm (trace (HEARTBEAT_work connector status_at st)).
Proof.
  unfold HEARTBEAT_work.
  apply calm_bind; [apply calm_snapshot_siridb | intros slsiridb st1].
  apply calm_bind; [apply calm_visit_all | intros siridb st2].
  apply calm_release_all.
Qed.

End mutexes.

(** C9: in every run, a call made while a mutex is held is a snapshot
    call (the copy of the list, an increment, or the unlock); a [sleep] or
    a [siridb_server_connect] is made with no mutex held; and no mutex is
    held when the run returns. *)
Theorem no_guard_held_across_io connector status_at st pre e post :
  trace (HEARTBEAT_work connector status_at st) = pre ++ e :: post →
  (locks_held pre ≠ [] → snapshot_call e = true)
  ∧ (blocking_call e = true → locks_held pre = [])
  ∧ locks_held (trace (HEARTBEAT_work connector status_at st)) = [].
Proof.
  intros Hsplit.
  destruct (calm_HEARTBEAT_work connector status_at st) as [Hok Hend].
  split; [ | split; [ | exact Hend]].
  - intros Hheld. rewrite Hsplit, guards_ok_app in Hok.
    apply andb_true_iff in Hok as [_ Hok]. simpl in Hok.
    apply andb_true_iff in Hok as [Hok _].
    apply orb_true_iff in Hok as [Hok | Hok]; [ | exact Hok].
    apply bool_decide_eq_true in Hok. contradiction.
  - intros Hio. rewrite Hsplit, guards_ok_app in Hok.
    apply andb_true_iff in Hok as [_ Hok]. simpl in Hok.
    apply andb_true_iff in Hok as [Hok _].
    apply orb_true_iff in Hok as [Hok | Hok].
    + apply bool_decide_eq_true in Hok. exact Hok.
    + destruct e; simpl in Hio, Hok; discriminate.
Qed.

Lemma no_guard_held_across_io_witness :
  let run := HEARTBEAT_work Sample.connector (Sample.always SIRI_HEARTBEAT_RUNNING)
               (Sample.at_start (Sample.cluster [1; 2]%nat)) in
  (trace run = take 11 (trace run) ++ sleep 1 :: drop 12 (trace run)
   ∧ locks_held (take 11 (trace run)) = [])
  ∧ (trace run = take 8 (trace run) ++ siridb_server_incref 11 :: drop 9 (trace run)
     ∧ locks_held (take 8 (trace run)) = [servers_mutex 1]
     ∧ snapshot_call (siridb_server_incref 11) = true)
  ∧ (trace run = take 14 (trace run) ++ siridb_server_connect 1 12 :: drop 15 (trace run)
     ∧ locks_held (take 14 (trace run)) = [])
  ∧ locks_held (trace run) = [].
Proof.
  pose (run := HEARTBEAT_work Sample.connector (Sample.always SIRI_HEARTBEAT_RUNNING)
                 (Sample.at_start (Sample.cluster [1; 2]%nat))).
  pose proof (no_guard_held_across_io Sample.connector
                (Sample.always SIRI_HEARTBEAT_RUNNING)
                (Sample.at_start (Sample.cluster [1; 2]%nat))
                (take 11 (trace run)) (sleep 1) (drop 12 (trace run)) eq_refl)
    as (_ & Hsleep & Hend).
  pose proof (no_guard_held_across_io Sample.connector
                (Sample.always SIRI_HEARTBEAT_RUNNING)
                (Sample.at_start (Sample.cluster [1; 2]%nat))
                (take 8 (trace run)) (siridb_server_incref 11) (drop 9 (trace run)) eq_refl)
    as (Hsnap & _ & _).
  pose proof (no_guard_held_across_io Sample.connector
                (Sample.always SIRI_HEARTBEAT_RUNNING)
                (Sample.at_start (Sample.cluster [1; 2]%nat))
                (take 14 (trace run)) (siridb_server_connect 1 12)
                (drop 15 (trace run)) eq_refl)
    as (_ & Hconnect & _).
  split; [split; [reflexivity | apply Hsleep; reflexivity] | ].
  split; [split; [reflexivity | split; [reflexivity | apply Hsnap; discriminate]] | ].
  split; [split; [reflexivity | apply Hconnect; reflexivity] | exact Hend].
Defined.

(** ** The reference counts *)

Lemma siridb_increfs_app a b : siridb_increfs (a ++ b) = siridb_increfs a ++ siridb_increfs b.
Proof. apply omap_app. Qed.

Lemma siridb_decrefs_app a b : siridb_decrefs (a ++ b) = siridb_decrefs a ++ siridb_decrefs b.
Proof. apply omap_app. Qed.

Lemma server_increfs_app a b : server_increfs (a ++ b) = server_increfs a ++ server_increfs b.
Proof. apply omap_app. Qed.

Lemma server_decrefs_app a b : server_decrefs (a ++ b) = server_decrefs a ++ server_decrefs b.
Proof. apply omap_app. Qed.

Lemma siridb_increfs_calls l : siridb_increfs (siridb_incref <$> l) = l.
Proof. induction l as [ | d l IH]; [reflexivity | ]. simpl. f_equal. exact IH. Qed.

Lemma siridb_decrefs_calls l : siridb_decrefs (siridb_incref <$> l) = [].
Proof. induction l as [ | d l IH]; [reflexivity | exact IH]. Qed.

Lemma server_increfs_calls l : server_increfs (siridb_server_incref <$> l) = l.
Proof. induction l as [ | s l IH]; [reflexivity | ]. simpl. f_equal. exact IH. Qed.

Lemma server_decrefs_calls l : server_decrefs (siridb_server_incref <$> l) = [].
Proof. induction l as [ | s l IH]; [reflexivity | exact IH]. Qed.

Lemma siridb_decrefs_replicate n d :
  siridb_decrefs (replicate n (siridb_decref d)) = replicate n d.
Proof. induction n as [ | n IH]; [reflexivity | ]. simpl. f_equal. exact IH. Qed.

Lemma siridb_increfs_replicate n d : siridb_increfs (replicate n (siridb_decref d)) = [].
Proof. induction n as [ | n IH]; [reflexivity | exact IH]. Qed.

(** Loop calls touch no database's count. *)
Lemma loop_calls_no_siridb_refs evs :
  forallb loop_call evs = true → siridb_increfs evs = [] ∧ siridb_decrefs evs = [].
Proof.
  induction evs as [ | e evs IH]; intros Hall; [split; reflexivity | ].
  simpl in Hall. apply andb_true_iff in Hall as [He Hall].
  destruct (IH Hall) as [Hi Hd].
  destruct e; simpl in He; try discriminate; split; assumption.
Qed.

Lemma loop_calls_fmap {A} (f : A → event) (l : list A) :
  (∀ x, loop_call (f x) = true) → forallb loop_call (f <$> l) = true.
Proof.
  intros Hf. induction l as [ | x l IH]; [reflexivity | ].
  rewrite fmap_cons. simpl. rewrite Hf, IH. reflexivity.
Qed.

Section references.
Variable connector : siri_t → siridb_ptr → server_ptr → siri_t.
Variable status_at : nat → siri_heartbeat_status_t.

Lemma loop_calls_bind {A B} (m : M wstate A) (f : A → M wstate B) st :
  forallb loop_call (trace (m st)) = true →
  (∀ a st', forallb loop_call (trace (f a st')) = true) →
  forallb loop_call (trace ((m ≫= f) st)) = true.
Proof.
  intros Hm Hf. rewrite run_bind. simpl. rewrite forallb_app, Hm, Hf. reflexivity.
Qed.

Lemma loop_calls_for_each {A} (l : list A) (body : A → M wstate unit) :
  (∀ x st, forallb loop_call (trace (body x st)) = true) →
  ∀ st, forallb loop_call (trace (for_each l body st)) = true.
Proof.
  intros Hb. induction l as [ | x l IH]; intros st; simpl for_each.
  - reflexivity.
  - apply loop_calls_bind; [apply Hb | intros _; exact IH].
Qed.

Lemma loop_calls_visit_server siridb srv st :
  forallb loop_call (trace (visit_server connector status_at siridb srv st)) = true.
Proof.
  rewrite visit_server_trace.
  destruct (bool_decide (connect_allowed status_at st siridb srv)); reflexivity.
Qed.

Lemma loop_calls_visit_siridb siridb st :
  forallb loop_call (trace (visit_siridb connector status_at siridb st)) = true.
Proof.
  unfold visit_siridb.
  apply loop_calls_bind; [ | intros slservers st1].
  { rewrite snapshot_servers_trace. simpl.
    rewrite forallb_app, loop_calls_fmap; reflexivity. }
  apply loop_calls_bind; [reflexivity | intros _ st2].
  apply loop_calls_bind; [ | intros _ st3; reflexivity].
  apply loop_calls_for_each. intros srv st'. apply loop_calls_visit_server.
Qed.

Lemma loop_calls_visit_all slsiridb : ∀ siridb st,
  forallb loop_call (trace (visit_all connector status_at slsiridb siridb st)) = true.
Proof.
  induction slsiridb as [ | d rest IH]; intros siridb st; simpl visit_all.
  - reflexivity.
  - apply loop_calls_bind; [apply loop_calls_visit_siridb | intros _ st1].
    apply loop_calls_bind; [reflexivity | intros s st2].
    destruct (decide (s = SIRI_HEARTBEAT_CANCELLED)); [reflexivity | apply IH].
Qed.

(** The databases incremented are those of the list, each once per
    occurrence; the decrements all go to the one database the loop variable
    was left at, once per entry of the snapshot. *)
Lemma HEARTBEAT_work_siridb_refs st :
  let l := siridb_list (shared st) in
  let loop := visit_all connector status_at l None
                (final (snapshot_siridb connector st)) in
  siridb_increfs (trace (HEARTBEAT_work connector status_at st)) = l
  ∧ siridb_decrefs (trace (HEARTBEAT_work connector status_at st))
    = match result loop with
      | Some d => replicate (length l) d
      | None => []
      end.
Proof.
  simpl. rewrite HEARTBEAT_work_trace. simpl.
  rewrite !siridb_increfs_app, !siridb_decrefs_app.
  destruct (loop_calls_no_siridb_refs _
              (loop_calls_visit_all (siridb_list (shared st)) None
                 (final (snapshot_siridb connector st)))) as [Hi Hd].
  rewrite Hi, Hd, snapshot_siridb_trace, release_all_trace. simpl.
  rewrite siridb_increfs_app, siridb_decrefs_app.
  rewrite siridb_increfs_calls, siridb_decrefs_calls. simpl.
  destruct (result (visit_all connector status_at (siridb_list (shared st)) None
                      (final (snapshot_siridb connector st)))) as [d | ].
  - rewrite siridb_increfs_replicate, siridb_decrefs_replicate, !app_nil_r.
    split; reflexivity.
  - rewrite !app_nil_r. split; reflexivity.
Qed.

(** The loop variable ends at one of the databases visited. *)
Lemma visit_all_result slsiridb : ∀ siridb st d,
  result (visit_all connector status_at slsiridb siridb st) = Some d →
  siridb = Some d ∨ d ∈ slsiridb.
Proof.
  induction slsiridb as [ | x rest IH]; intros siridb st d; simpl visit_all.
  - intros Hr. left. exact Hr.
  - rewrite run_bind. simpl. rewrite run_bind. simpl.
    destruct (decide (status_at _ = SIRI_HEARTBEAT_CANCELLED)); simpl.
    + intros [= ->]. right. apply list_elem_of_here.
    + intros Hr. apply IH in Hr as [[= ->] | Hin]; right.
      * apply list_elem_of_here.
      * apply list_elem_of_further. exact Hin.
Qed.

(** The servers: every increment of a snapshot is matched, in order, by a
    decrement. *)
Lemma servers_loop_refs siridb slservers : ∀ st,
  server_increfs (trace (for_each slservers (visit_server connector status_at siridb) st))
  = []
  ∧ server_decrefs (trace (for_each slservers (visit_server connector status_at siridb) st))
    = slservers.
Proof.
  induction slservers as [ | srv rest IH]; intros st; simpl for_each.
  - split; reflexivity.
  - rewrite run_bind. simpl. rewrite server_increfs_app, server_decrefs_app.
    destruct (IH (final (visit_server connector status_at siridb srv st))) as [Hi Hd].
    rewrite Hi, Hd, visit_server_trace.
    destruct (bool_decide (connect_allowed status_at st siridb srv)); split; reflexivity.
Qed.

Lemma visit_siridb_server_refs siridb st :
  server_increfs (trace (visit_siridb connector status_at siridb st))
  = server_decrefs (trace (visit_siridb connector status_at siridb st)).
Proof.
  unfold visit_siridb. rewrite run_bind. simpl. rewrite run_bind. simpl.
  rewrite run_bind. simpl.
  rewrite !server_increfs_app, !server_decrefs_app.
  rewrite snapshot_servers_result, snapshot_servers_trace. simpl.
  rewrite !server_increfs_app, !server_decrefs_app.
  rewrite server_increfs_calls, server_decrefs_calls.
  match goal with
  | |- context [for_each ?l (visit_server _ _ ?d) ?s] =>
      destruct (servers_loop_refs d l s) as [Hi Hd]
  end.
  rewrite Hi, Hd. simpl. rewrite !app_nil_r. reflexivity.
Qed.

Lemma visit_all_server_refs slsiridb : ∀ siridb st,
  server_increfs (trace (visit_all connector status_at slsiridb siridb st))
  = server_decrefs (trace (visit_all connector status_at slsiridb siridb st)).
Proof.
  induction slsiridb as [ | d rest IH]; intros siridb st; simpl visit_all.
  - reflexivity.
  - rewrite run_bind. simpl. rewrite run_bind. simpl.
    rewrite server_increfs_app, server_decrefs_app, visit_siridb_server_refs.
    f_equal.
    destruct (decide (status_at _ = SIRI_HEARTBEAT_CANCELLED)); [reflexivity | apply IH].
Qed.

(** A database after whose servers the status reads CANCELLED is the last
    one entered. *)
Lemma visit_all_cancelled d rest siridb st :
  status_at (clock (final (visit_siridb connector status_at d st)))
  = SIRI_HEARTBEAT_CANCELLED →
  visit_all connector status_at (d :: rest) siridb st
  = (Some d,
     final (visit_siridb connector status_at d st),
     trace (visit_siridb connector status_at d st)).
Proof.
  intros Hc. simpl visit_all. rewrite run_bind. simpl. rewrite run_bind. simpl.
  rewrite Hc. simpl. rewrite app_nil_r.
  destruct (visit_siridb connector status_at d st) as [[[] st1] evs]. reflexivity.
Qed.

End references.

Section whole_run.
Variable connector : siri_t → siridb_ptr → server_ptr → siri_t.
Variable status_at : nat → siri_heartbeat_status_t.

(** Over a whole run the servers' increments and decrements agree. *)
Lemma HEARTBEAT_work_server_refs st :
  server_increfs (trace (HEARTBEAT_work connector status_at st))
  = server_decrefs (trace (HEARTBEAT_work connector status_at st)).
Proof.
  rewrite HEARTBEAT_work_trace. simpl.
  rewrite !server_increfs_app, !server_decrefs_app, visit_all_server_refs.
  rewrite snapshot_siridb_trace, release_all_trace.
  assert (∀ l, server_increfs (siridb_incref <$> l) = []
               ∧ server_decrefs (siridb_incref <$> l) = []) as Hsnap.
  { induction l as [ | x l IH]; [split; reflexivity | exact IH]. }
  assert (∀ n d, server_increfs (replicate n (siridb_decref d)) = []
                 ∧ server_decrefs (replicate n (siridb_decref d)) = []) as Hrel.
  { induction n as [ | n IH]; intros d; [split; reflexivity | exact (IH d)]. }
  simpl. rewrite server_increfs_app, server_decrefs_app.
  destruct (Hsnap (siridb_list (shared st))) as [-> ->]. simpl.
  destruct (result _) as [d | ]; [ | reflexivity].
  destruct (Hrel (length (siridb_list (shared st))) d) as [-> ->]. reflexivity.
Qed.

(** A run cancelled while it is at its first database: the snapshot, that
    database's visit, and then one decrement per entry of the snapshot,
    every one of them on that first database. *)
Lemma HEARTBEAT_work_cancelled st d rest :
  siridb_list (shared st) = d :: rest →
  status_at (clock (final (visit_siridb connector status_at d
                             (final (snapshot_siridb connector st)))))
  = SIRI_HEARTBEAT_CANCELLED →
  trace (HEARTBEAT_work connector status_at st)
  = trace (snapshot_siridb connector st)
    ++ trace (visit_siridb connector status_at d (final (snapshot_siridb connector st)))
    ++ replicate (S (length rest)) (siridb_decref d).
Proof.
  intros Hl Hc. rewrite HEARTBEAT_work_trace. simpl. rewrite Hl.
  rewrite (visit_all_cancelled connector status_at d rest None _ Hc). simpl.
  rewrite release_all_trace. reflexivity.
Qed.

End whole_run.

(** C1 (the code at a failing input): two databases 1 and 2, each with
    its own three servers, status RUNNING throughout.  Both databases are
    incremented once; the release loop decrements database 2 twice and
    database 1 never.  The servers' counts come out even. *)
Theorem release_loop_decrements_last_database_only :
  let run := HEARTBEAT_work Sample.connector (Sample.always SIRI_HEARTBEAT_RUNNING)
               (Sample.at_start (Sample.cluster [1; 2]%nat)) in
  siridb_increfs (trace run) = [1; 2]%nat
  ∧ siridb_decrefs (trace run) = [2; 2]%nat
  ∧ times 1 (siridb_increfs (trace run)) = 1%nat
  ∧ times 1 (siridb_decrefs (trace run)) = 0%nat
  ∧ times 2 (siridb_increfs (trace run)) = 1%nat
  ∧ times 2 (siridb_decrefs (trace run)) = 2%nat
  ∧ server_increfs (trace run) = [10; 11; 12; 20; 21; 22]%nat
  ∧ server_decrefs (trace run) = [10; 11; 12; 20; 21; 22]%nat.
Proof. vm_compute. repeat split. Qed.

(** C5 (the code at a failing input): databases 1, 2 and 3, the status
    turning CANCELLED while the servers of database 1 are being visited.
    Databases 2 and 3 are not entered and nothing is connected for them,
    and the servers of database 1 are released; but the three decrements
    of the release loop all go to database 1, so 2 and 3 keep the
    reference the snapshot took. *)
Theorem cancelled_run_skips_rest_but_releases_first_only :
  let run := HEARTBEAT_work Sample.connector (Sample.cancelled_from 16)
               (Sample.at_start (Sample.cluster [1; 2; 3]%nat)) in
  visited (trace run) = [1]%nat
  ∧ connects (trace run) = [(1, 12)]%nat
  ∧ server_increfs (trace run) = [10; 11; 12]%nat
  ∧ server_decrefs (trace run) = [10; 11; 12]%nat
  ∧ siridb_increfs (trace run) = [1; 2; 3]%nat
  ∧ siridb_decrefs (trace run) = [1; 1; 1]%nat
  ∧ times 2 (siridb_decrefs (trace run)) = 0%nat
  ∧ times 3 (siridb_decrefs (trace run)) = 0%nat.
Proof. vm_compute. repeat split. Qed.

(** * Further properties of the run and of the scheduler *)

(** ** The shape of a run *)

Section shape.
Variable connector : siri_t → siridb_ptr → server_ptr → siri_t.
Variable status_at : nat → siri_heartbeat_status_t.

Lemma servers_loop_shape siridb slservers : ∀ st,
  ∃ turns,
    turns.*1 = slservers
    ∧ trace (for_each slservers (visit_server connector status_at siridb) st)
      = turns ≫= server_turn siridb.
Proof.
  induction slservers as [ | srv rest IH]; intros st.
  - exists []. split; reflexivity.
  - destruct (IH (final (visit_server connector status_at siridb srv st)))
      as (turns & Hfst & Htrace).
    exists ((srv, bool_decide (connect_allowed status_at st siridb srv)) :: turns).
    split; [rewrite fmap_cons, Hfst; reflexivity | ].
    simpl for_each. rewrite run_bind. simpl.
    rewrite Htrace, visit_server_trace. reflexivity.
Qed.

Lemma visit_siridb_shape siridb st :
  ∃ turns,
    turns.*1 = servers (siridb_at (shared st) siridb)
    ∧ trace (visit_siridb connector status_at siridb st) = siridb_turn (siridb, turns).
Proof.
  unfold visit_siridb. rewrite run_bind. simpl. rewrite run_bind. simpl.
  rewrite run_bind. simpl.
  rewrite snapshot_servers_result, snapshot_servers_trace.
  match goal with
  | |- context [for_each ?l (visit_server _ _ ?d) ?s] =>
      destruct (servers_loop_shape d l s) as (turns & Hfst & Htrace)
  end.
  exists turns. split; [exact Hfst | ].
  rewrite Htrace. unfold siridb_turn. simpl. rewrite Hfst.
  rewrite <- app_assoc. reflexivity.
Qed.

(** The loop over the databases enters the databases of a prefix of the
    snapshot, at least one when there is one, and leaves its variable at
    the database entered last. *)
Lemma visit_all_shape slsiridb : ∀ siridb st,
  ∃ visits,
    visits.*1 `prefix_of` slsiridb
    ∧ (slsiridb = [] ∨ visits ≠ [])
    ∧ trace (visit_all connector status_at slsiridb siridb st) = visits ≫= siridb_turn
    ∧ result (visit_all connector status_at slsiridb siridb st)
      = match list.last visits with
        | Some visit => Some visit.1
        | None => siridb
        end.
Proof.
  induction slsiridb as [ | d rest IH]; intros siridb st.
  - exists []. repeat split; [apply prefix_nil | left; reflexivity].
  - simpl visit_all. rewrite run_bind. simpl. rewrite run_bind. simpl.
    destruct (visit_siridb_shape d st) as (turns & _ & Hvisit).
    destruct (decide (status_at _ = SIRI_HEARTBEAT_CANCELLED)) as [Hc | Hc].
    + exists [(d, turns)]. simpl.
      split; [apply prefix_cons, prefix_nil | ].
      split; [right; discriminate | ].
      split; [ | reflexivity].
      rewrite Hvisit, !app_nil_r. reflexivity.
    + match goal with
      | |- context [visit_all _ _ rest (Some d) ?s] =>
          destruct (IH (Some d) s) as (visits & Hpre & _ & Htrace & Hres)
      end.
      exists ((d, turns) :: visits).
      split; [rewrite fmap_cons; apply prefix_cons; exact Hpre | ].
      split; [right; discriminate | ].
      split.
      * rewrite bind_cons, Hvisit, Htrace. reflexivity.
      * rewrite Hres. destruct visits as [ | v vs]; [reflexivity | ].
        rewrite last_cons_cons.
        destruct (list.last (v :: vs)) as [v' | ] eqn:Hlast; [reflexivity | ].
        rewrite last_cons in Hlast. destruct (list.last vs); discriminate.
Qed.

Lemma HEARTBEAT_work_has_shape st :
  ∃ visits,
    visits.*1 `prefix_of` siridb_list (shared st)
    ∧ (siridb_list (shared st) = [] ∨ visits ≠ [])
    ∧ trace (HEARTBEAT_work connector status_at st)
      = run_shape (siridb_list (shared st)) visits.
Proof.
  rewrite HEARTBEAT_work_trace. simpl.
  destruct (visit_all_shape (siridb_list (shared st)) None
              (final (snapshot_siridb connector st)))
    as (visits & Hpre & Hne & Htrace & Hres).
  exists visits. split; [exact Hpre | split; [exact Hne | ]].
  rewrite Htrace, Hres, snapshot_siridb_trace, release_all_trace.
  unfold run_shape. simpl. rewrite <- app_assoc. simpl.
  destruct (list.last visits); reflexivity.
Qed.

End shape.

(** ** Reading a shape *)

Lemma visited_app a b : visited (a ++ b) = visited a ++ visited b.
Proof. apply omap_app. Qed.

Lemma slept_app a b : slept (a ++ b) = slept a + slept b.
Proof.
  induction a as [ | e a IH]; [reflexivity | ].
  simpl. rewrite IH. destruct e; lia.
Qed.

Lemma server_turns_reads siridb turns :
  visited (turns ≫= server_turn siridb) = []
  ∧ slept (turns ≫= server_turn siridb) = 0
  ∧ server_increfs (turns ≫= server_turn siridb) = []
  ∧ server_decrefs (turns ≫= server_turn siridb) = turns.*1
  ∧ Forall (λ c, c.1 = siridb ∧ c.2 ∈ turns.*1) (connects (turns ≫= server_turn siridb)).
Proof.
  induction turns as [ | [srv go] turns (Hv & Hs & Hi & Hd & Hc)].
  - repeat split; constructor.
  - rewrite bind_cons, visited_app, slept_app, server_increfs_app, server_decrefs_app,
      connects_app, Hv, Hs, Hi, Hd, fmap_cons.
    assert (Forall (λ c : siridb_ptr * server_ptr, c.1 = siridb ∧ c.2 ∈ srv :: turns.*1)
              (connects (turns ≫= server_turn siridb))) as Hc'.
    { eapply Forall_impl; [exact Hc | ].
      intros c [Hdb Hin]. split; [exact Hdb | apply list_elem_of_further; exact Hin]. }
    destruct go; (split; [reflexivity | split; [reflexivity | split; [reflexivity | split;
      [reflexivity | ]]]]).
    + apply Forall_app. split; [ | exact Hc'].
      constructor; [ | constructor]. split; [reflexivity | apply list_elem_of_here].
    + exact Hc'.
Qed.

Lemma server_increfs_reads l :
  visited (siridb_server_incref <$> l) = []
  ∧ slept (siridb_server_incref <$> l) = 0
  ∧ connects (siridb_server_incref <$> l) = [].
Proof.
  induction l as [ | s l (Hv & Hs & Hc)]; [repeat split | ].
  rewrite fmap_cons. repeat split; assumption.
Qed.

Lemma siridb_turn_reads visit :
  visited (siridb_turn visit) = [visit.1]
  ∧ slept (siridb_turn visit) = 1
  ∧ server_increfs (siridb_turn visit) = visit.2.*1
  ∧ server_decrefs (siridb_turn visit) = visit.2.*1
  ∧ Forall (λ c, c.1 = visit.1 ∧ c.2 ∈ visit.2.*1) (connects (siridb_turn visit)).
Proof.
  destruct visit as [d turns]. unfold siridb_turn. simpl.
  destruct (server_turns_reads d turns) as (Hv & Hs & Hi & Hd & Hc).
  destruct (server_increfs_reads turns.*1) as (Hv' & Hs' & Hc').
  split; [ | split; [ | split; [ | split]]].
  - change (visited (uv_mutex_lock (servers_mutex d) :: ?l)) with (d :: visited l).
    f_equal.
    change (visited (llist2slist (servers_mutex d) :: ?l)) with (visited l).
    rewrite visited_app, Hv'. simpl.
    change (visited (uv_mutex_unlock (servers_mutex d) :: sleep 1 :: ?l)) with (visited l).
    rewrite visited_app, Hv. reflexivity.
  - rewrite slept_app, Hs'. simpl. rewrite slept_app, Hs. reflexivity.
  - change (server_increfs (uv_mutex_lock (servers_mutex d)
                             :: llist2slist (servers_mutex d) :: ?l))
      with (server_increfs l).
    rewrite server_increfs_app, server_increfs_calls.
    change (server_increfs (uv_mutex_unlock (servers_mutex d) :: sleep 1 :: ?l))
      with (server_increfs l).
    rewrite server_increfs_app, Hi. simpl. apply app_nil_r.
  - change (server_decrefs (uv_mutex_lock (servers_mutex d)
                             :: llist2slist (servers_mutex d) :: ?l))
      with (server_decrefs l).
    rewrite server_decrefs_app, server_decrefs_calls.
    change (server_decrefs (uv_mutex_unlock (servers_mutex d) :: sleep 1 :: ?l))
      with (server_decrefs l).
    rewrite server_decrefs_app, Hd. simpl. apply app_nil_r.
  - change (connects (uv_mutex_lock (servers_mutex d)
                       :: llist2slist (servers_mutex d) :: ?l))
      with (connects l).
    rewrite connects_app, Hc'.
    change (connects (uv_mutex_unlock (servers_mutex d) :: sleep 1 :: ?l))
      with (connects l).
    rewrite connects_app. simpl. rewrite app_nil_r. exact Hc.
Qed.

Lemma siridb_increfs_reads l :
  visited (siridb_incref <$> l) = []
  ∧ slept (siridb_incref <$> l) = 0
  ∧ connects (siridb_incref <$> l) = [].
Proof.
  induction l as [ | d l (Hv & Hs & Hc)]; [repeat split | ].
  rewrite fmap_cons. repeat split; assumption.
Qed.

Lemma siridb_decrefs_reads n d :
  visited (replicate n (siridb_decref d)) = []
  ∧ slept (replicate n (siridb_decref d)) = 0
  ∧ connects (replicate n (siridb_decref d)) = [].
Proof. induction n as [ | n (Hv & Hs & Hc)]; repeat split; assumption. Qed.

Lemma visits_reads visits :
  visited (visits ≫= siridb_turn) = visits.*1
  ∧ slept (visits ≫= siridb_turn) = Z.of_nat (length visits)
  ∧ Forall (λ c, c.1 ∈ visits.*1) (connects (visits ≫= siridb_turn)).
Proof.
  induction visits as [ | visit visits (Hv & Hs & Hc)].
  - repeat split; constructor.
  - destruct (siridb_turn_reads visit) as (Hv1 & Hs1 & _ & _ & Hc1).
    rewrite bind_cons, visited_app, slept_app, connects_app, Hv, Hs, Hv1, Hs1, fmap_cons.
    split; [reflexivity | split; [simpl length; lia | ]].
    apply Forall_app. split.
    + eapply Forall_impl; [exact Hc1 | ].
      intros c [-> _]. apply list_elem_of_here.
    + eapply Forall_impl; [exact Hc | ].
      intros c Hin. apply list_elem_of_further. exact Hin.
Qed.

Lemma run_shape_reads slsiridb visits :
  visited (run_shape slsiridb visits) = visits.*1
  ∧ slept (run_shape slsiridb visits) = Z.of_nat (length visits)
  ∧ Forall (λ c, c.1 ∈ visits.*1) (connects (run_shape slsiridb visits)).
Proof.
  unfold run_shape.
  destruct (siridb_increfs_reads slsiridb) as (Hv1 & Hs1 & Hc1).
  destruct (visits_reads visits) as (Hv2 & Hs2 & Hc2).
  assert (visited (match list.last visits with
                   | Some visit => replicate (length slsiridb) (siridb_decref visit.1)
                   | None => []
                   end) = []
          ∧ slept (match list.last visits with
                   | Some visit => replicate (length slsiridb) (siridb_decref visit.1)
                   | None => []
                   end) = 0
          ∧ connects (match list.last visits with
                      | Some visit => replicate (length slsiridb) (siridb_decref visit.1)
                      | None => []
                      end) = []) as (Hv3 & Hs3 & Hc3).
  { destruct (list.last visits); [apply siridb_decrefs_reads | repeat split]. }
  split; [ | split].
  - change (visited (uv_mutex_lock siridb_mutex :: llist2slist siridb_mutex :: ?l))
      with (visited l).
    rewrite visited_app, Hv1.
    change (visited (uv_mutex_unlock siridb_mutex :: ?l)) with (visited l).
    rewrite visited_app, Hv2, Hv3. apply app_nil_r.
  - change (slept (uv_mutex_lock siridb_mutex :: llist2slist siridb_mutex :: ?l))
      with (slept l).
    rewrite slept_app, Hs1.
    change (slept (uv_mutex_unlock siridb_mutex :: ?l)) with (slept l).
    rewrite slept_app, Hs2, Hs3. lia.
  - change (connects (uv_mutex_lock siridb_mutex :: llist2slist siridb_mutex :: ?l))
      with (connects l).
    rewrite connects_app, Hc1.
    change (connects (uv_mutex_unlock siridb_mutex :: ?l)) with (connects l).
    rewrite connects_app, Hc3, app_nil_r. exact Hc2.
Qed.

(** X1: the calls of every run, in order, are: the snapshot of the
    databases under [siridb_mutex]; then, for the databases of a prefix of
    that snapshot (at least one when the snapshot is not empty), the
    snapshot of the database's servers under its [servers_mutex], one
    second of sleep, for every server of that snapshot an optional connect
    followed by the server's decrement, and the snapshot freed; then one
    database decrement per entry of the databases' snapshot, all on the
    database entered last. *)
Theorem run_follows_shape connector status_at st :
  ∃ visits,
    trace (HEARTBEAT_work connector status_at st)
    = run_shape (siridb_list (shared st)) visits
    ∧ visits.*1 `prefix_of` siridb_list (shared st)
    ∧ (siridb_list (shared st) = [] ∨ visits ≠ []).
Proof.
  destruct (HEARTBEAT_work_has_shape connector status_at st) as (visits & Hpre & Hne & Ht).
  exists visits. split; [exact Ht | split; [exact Hpre | exact Hne]].
Qed.

(** X2: over every run, cancelled or not, the servers decremented are the
    servers incremented, in the same order; and in the visit of one
    database both are the database's server list as it stood when the
    visit took its snapshot, whatever the connector does to the store
    during the visit. *)
Theorem server_references_balance connector status_at st siridb st' :
  server_increfs (trace (HEARTBEAT_work connector status_at st))
  = server_decrefs (trace (HEARTBEAT_work connector status_at st))
  ∧ server_increfs (trace (visit_siridb connector status_at siridb st'))
    = servers (siridb_at (shared st') siridb)
  ∧ server_decrefs (trace (visit_siridb connector status_at siridb st'))
    = servers (siridb_at (shared st') siridb).
Proof.
  split; [apply HEARTBEAT_work_server_refs | ].
  destruct (visit_siridb_shape connector status_at siridb st') as (turns & Hfst & Ht).
  destruct (siridb_turn_reads (siridb, turns)) as (_ & _ & Hi & Hd & _).
  rewrite Ht, Hi, Hd. simpl. split; exact Hfst.
Qed.

(** X6: the databases a run enters are a prefix of the list of databases
    as it stood at the snapshot, in that order, and a connect is only ever
    made for a database the run has entered. *)
Theorem databases_entered_in_snapshot_order connector status_at st :
  visited (trace (HEARTBEAT_work connector status_at st))
    `prefix_of` siridb_list (shared st)
  ∧ Forall (λ c, c.1 ∈ visited (trace (HEARTBEAT_work connector status_at st)))
      (connects (trace (HEARTBEAT_work connector status_at st))).
Proof.
  destruct (HEARTBEAT_work_has_shape connector status_at st) as (visits & Hpre & _ & Ht).
  destruct (run_shape_reads (siridb_list (shared st)) visits) as (Hv & _ & Hc).
  rewrite Ht, Hv. split; [exact Hpre | exact Hc].
Qed.

(** X11: a run sleeps one second for every database it enters, so at
    least one second whenever the list of databases is not empty. *)
Theorem one_second_per_database_entered connector status_at st :
  slept (trace (HEARTBEAT_work connector status_at st))
  = Z.of_nat (length (visited (trace (HEARTBEAT_work connector status_at st))))
  ∧ (siridb_list (shared st) = []
     ∨ 1 ≤ slept (trace (HEARTBEAT_work connector status_at st))).
Proof.
  destruct (HEARTBEAT_work_has_shape connector status_at st) as (visits & _ & Hne & Ht).
  destruct (run_shape_reads (siridb_list (shared st)) visits) as (Hv & Hs & _).
  rewrite Ht, Hv, Hs, length_fmap. split; [reflexivity | ].
  destruct Hne as [Hnil | Hne]; [left; exact Hnil | right].
  destruct visits; [contradiction | simpl length; lia].
Qed.

(** ** The databases' reference counts, in general *)

Lemma loop_calls_server_turns siridb turns :
  forallb loop_call (turns ≫= server_turn siridb) = true.
Proof.
  induction turns as [ | [srv go] turns IH]; [reflexivity | ].
  rewrite bind_cons, forallb_app, IH. destruct go; reflexivity.
Qed.

Lemma loop_calls_siridb_turn visit : forallb loop_call (siridb_turn visit) = true.
Proof.
  destruct visit as [d turns]. unfold siridb_turn. simpl.
  rewrite forallb_app, loop_calls_fmap by reflexivity. simpl.
  rewrite forallb_app, loop_calls_server_turns. reflexivity.
Qed.

Lemma loop_calls_visits visits : forallb loop_call (visits ≫= siridb_turn) = true.
Proof.
  induction visits as [ | visit visits IH]; [reflexivity | ].
  rewrite bind_cons, forallb_app, IH, loop_calls_siridb_turn. reflexivity.
Qed.

Lemma run_shape_siridb_refs slsiridb visits :
  siridb_increfs (run_shape slsiridb visits) = slsiridb
  ∧ siridb_decrefs (run_shape slsiridb visits)
    = match list.last visits with
      | Some visit => replicate (length slsiridb) visit.1
      | None => []
      end.
Proof.
  unfold run_shape.
  destruct (loop_calls_no_siridb_refs _ (loop_calls_visits visits)) as [Hi Hd].
  split.
  - change (siridb_increfs (uv_mutex_lock siridb_mutex :: llist2slist siridb_mutex :: ?l))
      with (siridb_increfs l).
    rewrite siridb_increfs_app, siridb_increfs_calls.
    change (siridb_increfs (uv_mutex_unlock siridb_mutex :: ?l)) with (siridb_increfs l).
    rewrite siridb_increfs_app, Hi. simpl.
    destruct (list.last visits); [rewrite siridb_increfs_replicate | ]; apply app_nil_r.
  - change (siridb_decrefs (uv_mutex_lock siridb_mutex :: llist2slist siridb_mutex :: ?l))
      with (siridb_decrefs l).
    rewrite siridb_decrefs_app, siridb_decrefs_calls.
    change (siridb_decrefs (uv_mutex_unlock siridb_mutex :: ?l)) with (siridb_decrefs l).
    rewrite siridb_decrefs_app, Hd. simpl.
    destruct (list.last visits); [apply siridb_decrefs_replicate | reflexivity].
Qed.

(** Every run: the increments are the snapshot; the decrements are as
    many, all on one database, which for a snapshot that is not empty is
    the database entered last, a member of the snapshot. *)
Lemma HEARTBEAT_work_siridb_accounting connector status_at st :
  siridb_increfs (trace (HEARTBEAT_work connector status_at st)) = siridb_list (shared st)
  ∧ ∃ d,
      siridb_decrefs (trace (HEARTBEAT_work connector status_at st))
      = replicate (length (siridb_list (shared st))) d
      ∧ (siridb_list (shared st) = []
         ∨ (d ∈ siridb_list (shared st)
            ∧ list.last (visited (trace (HEARTBEAT_work connector status_at st)))
              = Some d)).
Proof.
  destruct (HEARTBEAT_work_has_shape connector status_at st) as (visits & Hpre & Hne & Ht).
  destruct (run_shape_siridb_refs (siridb_list (shared st)) visits) as [Hi Hd].
  destruct (run_shape_reads (siridb_list (shared st)) visits) as (Hv & _ & _).
  rewrite Ht, Hi, Hd, Hv, fmap_last. split; [reflexivity | ].
  destruct (list.last visits) as [visit | ] eqn:Hlast.
  - exists visit.1. split; [reflexivity | right]. split; [ | reflexivity].
    apply (elem_of_prefix visits.*1); [ | exact Hpre].
    apply list_elem_of_fmap. exists visit. split; [reflexivity | ].
    apply last_Some_elem_of. exact Hlast.
  - exists 0%nat. destruct Hne as [Hnil | Hne].
    + rewrite Hnil. split; [reflexivity | left; reflexivity].
    + destruct visits as [ | v vs]; [contradiction | ].
      rewrite last_cons in Hlast. destruct (list.last vs); discriminate.
Qed.

(** X3: in every run the databases incremented are those of the list, one
    increment per entry; the decrements are exactly as many, and all of them
    are on a single database, which (for a list that is not empty) is a
    member of the list: the database the run entered last. *)
Theorem database_decrements_all_on_last_entered connector status_at st :
  siridb_increfs (trace (HEARTBEAT_work connector status_at st)) = siridb_list (shared st)
  ∧ length (siridb_decrefs (trace (HEARTBEAT_work connector status_at st)))
    = length (siridb_increfs (trace (HEARTBEAT_work connector status_at st)))
  ∧ ∃ d,
      siridb_decrefs (trace (HEARTBEAT_work connector status_at st))
      = replicate (length (siridb_list (shared st))) d
      ∧ (siridb_list (shared st) = []
         ∨ (d ∈ siridb_list (shared st)
            ∧ list.last (visited (trace (HEARTBEAT_work connector status_at st)))
              = Some d)).
Proof.
  destruct (HEARTBEAT_work_siridb_accounting connector status_at st)
    as (Hi & d & Hd & Hlast).
  split; [exact Hi | split].
  - rewrite Hi, Hd. apply length_replicate.
  - exists d. split; [exact Hd | exact Hlast].
Qed.

(** X4: for a list of at most one database the release loop is right:
    the databases decremented are the databases incremented. *)
Theorem single_database_is_balanced connector status_at st :
  (length (siridb_list (shared st)) ≤ 1)%nat →
  siridb_decrefs (trace (HEARTBEAT_work connector status_at st))
  = siridb_increfs (trace (HEARTBEAT_work connector status_at st)).
Proof.
  intros Hlen.
  destruct (HEARTBEAT_work_siridb_accounting connector status_at st)
    as (Hi & d & Hd & Hlast).
  rewrite Hi, Hd.
  destruct (siridb_list (shared st)) as [ | d0 [ | d1 rest]]; simpl in Hlen.
  - reflexivity.
  - destruct Hlast as [Hnil | [Hin _]]; [discriminate | ].
    apply list_elem_of_singleton in Hin. rewrite Hin. reflexivity.
  - lia.
Qed.

Lemma single_database_is_balanced_witness :
  let run := HEARTBEAT_work Sample.connector (Sample.always SIRI_HEARTBEAT_RUNNING)
               (Sample.at_start (Sample.cluster [7]%nat)) in
  siridb_increfs (trace run) = [7]%nat
  ∧ siridb_decrefs (trace run) = siridb_increfs (trace run).
Proof.
  split; [reflexivity | ].
  apply (single_database_is_balanced Sample.connector
           (Sample.always SIRI_HEARTBEAT_RUNNING)
           (Sample.at_start (Sample.cluster [7]%nat))).
  simpl. lia.
Defined.

(** ** Cancellation, and its absence *)

Section cancellation.
Variable connector : siri_t → siridb_ptr → server_ptr → siri_t.
Variable status_at : nat → siri_heartbeat_status_t.

Lemma visited_snapshot_siridb st : visited (trace (snapshot_siridb connector st)) = [].
Proof.
  rewrite snapshot_siridb_trace.
  destruct (siridb_increfs_reads (siridb_list (shared st))) as (Hv & _ & _).
  change (visited (uv_mutex_lock siridb_mutex :: llist2slist siridb_mutex :: ?l))
    with (visited l).
  rewrite visited_app, Hv. reflexivity.
Qed.

Lemma visited_release_all slsiridb siridb st :
  visited (trace (release_all connector slsiridb siridb st)) = [].
Proof.
  rewrite release_all_trace. destruct siridb as [d | ]; [ | reflexivity].
  apply siridb_decrefs_reads.
Qed.

Lemma visited_visit_siridb siridb st :
  visited (trace (visit_siridb connector status_at siridb st)) = [siridb].
Proof.
  destruct (visit_siridb_shape connector status_at siridb st) as (turns & _ & Ht).
  rewrite Ht. apply (siridb_turn_reads (siridb, turns)).
Qed.

(** While the status never reads CANCELLED the loop enters every database. *)
Lemma visit_all_uncancelled slsiridb :
  (∀ t, status_at t ≠ SIRI_HEARTBEAT_CANCELLED) →
  ∀ siridb st,
    visited (trace (visit_all connector status_at slsiridb siridb st)) = slsiridb.
Proof.
  intros Hrun. induction slsiridb as [ | d rest IH]; intros siridb st; [reflexivity | ].
  simpl visit_all. rewrite run_bind. simpl. rewrite run_bind. simpl.
  destruct (decide (status_at _ = SIRI_HEARTBEAT_CANCELLED)) as [Hc | _].
  - exfalso. exact (Hrun _ Hc).
  - rewrite visited_app, visited_visit_siridb, IH. reflexivity.
Qed.

Lemma HEARTBEAT_work_uncancelled st :
  (∀ t, status_at t ≠ SIRI_HEARTBEAT_CANCELLED) →
  visited (trace (HEARTBEAT_work connector status_at st)) = siridb_list (shared st).
Proof.
  intros Hrun. rewrite HEARTBEAT_work_trace. simpl.
  rewrite !visited_app, visited_snapshot_siridb, visited_release_all,
    (visit_all_uncancelled _ Hrun).
  simpl. apply app_nil_r.
Qed.

(** A trace whose connects are justified while the status always reads
    CANCELLED has no connect. *)
Lemma justified_never_connects evs : ∀ st,
  (∀ t, status_at t = SIRI_HEARTBEAT_CANCELLED) →
  connects_justified connector status_at st evs → connects evs = [].
Proof.
  induction evs as [ | e evs IH]; intros st Hc Hj; [reflexivity | ].
  simpl in Hj. destruct Hj as [He Hj]. specialize (IH _ Hc Hj).
  destruct e; try exact IH.
  destruct He as (_ & Hst & _). exfalso. apply Hst, Hc.
Qed.

Lemma HEARTBEAT_work_started_cancelled st :
  (∀ t, status_at t = SIRI_HEARTBEAT_CANCELLED) →
  visited (trace (HEARTBEAT_work connector status_at st)) = take 1 (siridb_list (shared st)).
Proof.
  intros Hc. destruct (siridb_list (shared st)) as [ | d rest] eqn:Hl.
  - rewrite HEARTBEAT_work_trace. simpl. rewrite Hl. simpl.
    rewrite app_nil_r. apply visited_snapshot_siridb.
  - rewrite (HEARTBEAT_work_cancelled connector status_at st d rest Hl (Hc _)).
    rewrite !visited_app, visited_snapshot_siridb, visited_visit_siridb.
    destruct (siridb_decrefs_reads (S (length rest)) d) as (Hv & _ & _).
    rewrite Hv. reflexivity.
Qed.

End cancellation.

(** X5: a run during which the status never reads CANCELLED enters every
    database of the list, in the order of the list, sleeps one second for
    each, and issues all its database decrements on the last database of
    the list. *)
Theorem uncancelled_run_enters_every_database connector status_at st :
  (∀ t, status_at t ≠ SIRI_HEARTBEAT_CANCELLED) →
  visited (trace (HEARTBEAT_work connector status_at st)) = siridb_list (shared st)
  ∧ slept (trace (HEARTBEAT_work connector status_at st))
    = Z.of_nat (length (siridb_list (shared st)))
  ∧ siridb_decrefs (trace (HEARTBEAT_work connector status_at st))
    = match list.last (siridb_list (shared st)) with
      | Some d => replicate (length (siridb_list (shared st))) d
      | None => []
      end.
Proof.
  intros Hrun.
  pose proof (HEARTBEAT_work_uncancelled connector status_at st Hrun) as Hv.
  destruct (HEARTBEAT_work_has_shape connector status_at st) as (visits & _ & _ & Ht).
  destruct (run_shape_reads (siridb_list (shared st)) visits) as (Hv' & Hs & _).
  destruct (HEARTBEAT_work_siridb_accounting connector status_at st)
    as (_ & d & Hd & Hlast).
  split; [exact Hv | split].
  - rewrite Ht, Hs. rewrite Ht, Hv' in Hv. rewrite <- Hv, length_fmap. reflexivity.
  - rewrite Hd. rewrite Hv in Hlast. destruct Hlast as [Hnil | [_ Hlast]].
    + rewrite Hnil. reflexivity.
    + rewrite Hlast. reflexivity.
Qed.

Lemma uncancelled_run_enters_every_database_witness :
  let run := HEARTBEAT_work Sample.connector (Sample.always SIRI_HEARTBEAT_RUNNING)
               (Sample.at_start (Sample.cluster [4; 2; 9]%nat)) in
  visited (trace run) = [4; 2; 9]%nat
  ∧ slept (trace run) = 3
  ∧ siridb_decrefs (trace run) = [9; 9; 9]%nat.
Proof.
  apply (uncancelled_run_enters_every_database Sample.connector
           (Sample.always SIRI_HEARTBEAT_RUNNING)
           (Sample.at_start (Sample.cluster [4; 2; 9]%nat))).
  intros t. discriminate.
Defined.

(** X7: once the status reads CANCELLED from some time of the worker on,
    every connect of the run was called before that time. *)
Theorem no_connect_once_cancelled connector status_at st t0 pre siridb srv post :
  (∀ t, (t0 ≤ t)%nat → status_at t = SIRI_HEARTBEAT_CANCELLED) →
  trace (HEARTBEAT_work connector status_at st)
  = pre ++ siridb_server_connect siridb srv :: post →
  (clock st + length pre < t0)%nat.
Proof.
  intros Hc Hsplit.
  pose proof (justified_HEARTBEAT_work connector status_at st) as Hj.
  rewrite Hsplit in Hj. apply justified_app in Hj as [_ Hj].
  simpl in Hj. destruct Hj as [(_ & Hst & _) _].
  rewrite advance_clock in Hst.
  destruct (decide (clock st + length pre < t0)%nat) as [Hlt | Hge]; [exact Hlt | ].
  exfalso. apply Hst, Hc. lia.
Qed.

Lemma no_connect_once_cancelled_witness :
  let st := Sample.at_start (Sample.cluster [1; 2; 3]%nat) in
  let run := HEARTBEAT_work Sample.connector (Sample.cancelled_from 16) st in
  trace run = take 15 (trace run) ++ siridb_server_connect 1 12 :: drop 16 (trace run)
  ∧ (clock st + length (take 15 (trace run)) < 16)%nat.
Proof.
  split; [reflexivity | ].
  apply (no_connect_once_cancelled Sample.connector (Sample.cancelled_from 16)
           (Sample.at_start (Sample.cluster [1; 2; 3]%nat)) 16
           (take 15 (trace (HEARTBEAT_work Sample.connector (Sample.cancelled_from 16)
                              (Sample.at_start (Sample.cluster [1; 2; 3]%nat)))))
           1%nat 12%nat
           (drop 16 (trace (HEARTBEAT_work Sample.connector (Sample.cancelled_from 16)
                              (Sample.at_start (Sample.cluster [1; 2; 3]%nat)))))).
  - intros t Ht. unfold Sample.cancelled_from.
    destruct (decide (t < 16)%nat) as [Hlt | _]; [lia | reflexivity].
  - reflexivity.
Defined.

(** X8: a run that finds the status CANCELLED from its first read on
    still takes the databases' snapshot, enters the first database of the
    list (locking its servers, sleeping its second) and no other, and
    connects nothing. *)
Theorem run_started_cancelled_enters_first_database connector status_at st :
  (∀ t, status_at t = SIRI_HEARTBEAT_CANCELLED) →
  connects (trace (HEARTBEAT_work connector status_at st)) = []
  ∧ visited (trace (HEARTBEAT_work connector status_at st))
    = take 1 (siridb_list (shared st))
  ∧ siridb_increfs (trace (HEARTBEAT_work connector status_at st))
    = siridb_list (shared st)
  ∧ slept (trace (HEARTBEAT_work connector status_at st))
    = Z.of_nat (length (take 1 (siridb_list (shared st)))).
Proof.
  intros Hc.
  pose proof (HEARTBEAT_work_started_cancelled connector status_at st Hc) as Hv.
  destruct (HEARTBEAT_work_has_shape connector status_at st) as (visits & _ & _ & Ht).
  destruct (run_shape_reads (siridb_list (shared st)) visits) as (Hv' & Hs & _).
  destruct (HEARTBEAT_work_siridb_accounting connector status_at st) as (Hi & _).
  split; [ | split; [exact Hv | split; [exact Hi | ]]].
  - apply (justified_never_connects connector status_at _ st Hc).
    apply justified_HEARTBEAT_work.
  - rewrite Ht, Hs. rewrite Ht, Hv' in Hv. rewrite <- Hv, length_fmap. reflexivity.
Qed.

Lemma run_started_cancelled_enters_first_database_witness :
  let run := HEARTBEAT_work Sample.connector (Sample.always SIRI_HEARTBEAT_CANCELLED)
               (Sample.at_start (Sample.cluster [1; 2; 3]%nat)) in
  connects (trace run) = []
  ∧ visited (trace run) = [1]%nat
  ∧ siridb_increfs (trace run) = [1; 2; 3]%nat
  ∧ slept (trace run) = 1.
Proof.
  apply (run_started_cancelled_enters_first_database Sample.connector
           (Sample.always SIRI_HEARTBEAT_CANCELLED)
           (Sample.at_start (Sample.cluster [1; 2; 3]%nat))).
  intros t. reflexivity.
Defined.

(** ** The lock protocol *)

Lemma lock_protocol_app a : ∀ held b,
  lock_protocol held (a ++ b)
  ↔ lock_protocol held a ∧ lock_protocol (locks_after held a) b.
Proof.
  induction a as [ | e a IH]; intros held b; simpl.
  - tauto.
  - rewrite IH. tauto.
Qed.

Lemma locks_step_unlock m : locks_step [m] (uv_mutex_unlock m) = [].
Proof.
  simpl. rewrite filter_cons_False by (intros H; apply H; reflexivity). reflexivity.
Qed.

(** A block of calls that keeps the protocol from no mutex held to no
    mutex held; such blocks can be put one after the other. *)
Lemma lock_blocks_app a b :
  lock_protocol [] a ∧ locks_after [] a = [] →
  lock_protocol [] b ∧ locks_after [] b = [] →
  lock_protocol [] (a ++ b) ∧ locks_after [] (a ++ b) = [].
Proof.
  intros [Ha Hla] [Hb Hlb]. rewrite lock_protocol_app, locks_after_app, Hla.
  repeat split; assumption.
Qed.

Lemma lock_protocol_increments {A} (f : A → event) (l : list A) held rest :
  (∀ x, lock_rule held (f x)) →
  (∀ x, locks_step held (f x) = held) →
  lock_protocol held rest →
  lock_protocol held ((f <$> l) ++ rest)
  ∧ locks_after held ((f <$> l) ++ rest) = locks_after held rest.
Proof.
  intros Hrule Hstep Hrest. induction l as [ | x l [IHp IHl]]; [split; [exact Hrest | reflexivity] | ].
  rewrite fmap_cons. simpl. rewrite Hstep. repeat split; [apply Hrule | exact IHp | exact IHl].
Qed.

Lemma lock_block_snapshot {A} (m : mutex) (f : A → event) (l : list A) :
  (∀ x, lock_rule [m] (f x)) →
  (∀ x, locks_step [m] (f x) = [m]) →
  lock_protocol [] (uv_mutex_lock m :: llist2slist m
                      :: (f <$> l) ++ [uv_mutex_unlock m])
  ∧ locks_after [] (uv_mutex_lock m :: llist2slist m
                      :: (f <$> l) ++ [uv_mutex_unlock m]) = [].
Proof.
  intros Hrule Hstep.
  assert (lock_protocol [m] [uv_mutex_unlock m]) as Hrest.
  { simpl. split; [reflexivity | exact I]. }
  destruct (lock_protocol_increments f l [m] [uv_mutex_unlock m] Hrule Hstep Hrest)
    as [Hp Hl].
  split.
  - simpl. split; [reflexivity | split; [reflexivity | exact Hp]].
  - unfold locks_after in Hl |- *. simpl. rewrite Hl. simpl.
    apply (locks_step_unlock m).
Qed.

Lemma lock_block_server_turns siridb turns :
  lock_protocol [] (turns ≫= server_turn siridb)
  ∧ locks_after [] (turns ≫= server_turn siridb) = [].
Proof.
  induction turns as [ | [srv go] turns IH]; [split; [exact I | reflexivity] | ].
  rewrite bind_cons. apply lock_blocks_app; [ | exact IH].
  destruct go; simpl; repeat split.
Qed.

Lemma lock_block_siridb_turn visit :
  lock_protocol [] (siridb_turn visit) ∧ locks_after [] (siridb_turn visit) = [].
Proof.
  destruct visit as [d turns]. unfold siridb_turn. simpl fst. simpl snd.
  change (uv_mutex_lock (servers_mutex d) :: llist2slist (servers_mutex d)
            :: (siridb_server_incref <$> turns.*1)
            ++ uv_mutex_unlock (servers_mutex d) :: sleep 1
            :: (turns ≫= server_turn d) ++ [slist_free])
    with (uv_mutex_lock (servers_mutex d) :: llist2slist (servers_mutex d)
            :: (siridb_server_incref <$> turns.*1)
            ++ [uv_mutex_unlock (servers_mutex d)]
            ++ ([sleep 1] ++ (turns ≫= server_turn d) ++ [slist_free])).
  rewrite (app_assoc (siridb_server_incref <$> turns.*1)).
  rewrite !app_comm_cons.
  apply lock_blocks_app.
  - apply (lock_block_snapshot (servers_mutex d) siridb_server_incref).
    + intros s. exists d. reflexivity.
    + intros s. reflexivity.
  - apply lock_blocks_app; [simpl; repeat split | ].
    apply lock_blocks_app; [apply lock_block_server_turns | simpl; repeat split].
Qed.

Lemma lock_block_visits visits :
  lock_protocol [] (visits ≫= siridb_turn) ∧ locks_after [] (visits ≫= siridb_turn) = [].
Proof.
  induction visits as [ | visit visits IH]; [split; [exact I | reflexivity] | ].
  rewrite bind_cons. apply lock_blocks_app; [apply lock_block_siridb_turn | exact IH].
Qed.

Lemma lock_block_run_shape slsiridb visits :
  lock_protocol [] (run_shape slsiridb visits)
  ∧ locks_after [] (run_shape slsiridb visits) = [].
Proof.
  unfold run_shape.
  change (uv_mutex_lock siridb_mutex :: llist2slist siridb_mutex
            :: (siridb_incref <$> slsiridb) ++ uv_mutex_unlock siridb_mutex :: ?rest)
    with (uv_mutex_lock siridb_mutex :: llist2slist siridb_mutex
            :: (siridb_incref <$> slsiridb) ++ [uv_mutex_unlock siridb_mutex] ++ rest).
  rewrite (app_assoc (siridb_incref <$> slsiridb)).
  rewrite !app_comm_cons.
  apply lock_blocks_app.
  - apply (lock_block_snapshot siridb_mutex siridb_incref); intros d; reflexivity.
  - apply lock_blocks_app; [apply lock_block_visits | ].
    destruct (list.last visits) as [visit | ]; [ | split; [exact I | reflexivity]].
    induction (length slsiridb) as [ | n [IHp IHl]]; [split; [exact I | reflexivity] | ].
    simpl. repeat split; assumption.
Qed.

(** X10: at every call of every run the mutexes held are exactly these:
    none for a lock (so the two kinds of mutex are never nested) and for
    every call that is not part of a snapshot (sleep, connect, every
    decrement, the freeing of the servers' snapshot); the mutex itself for
    its unlock and for the copy of the list it guards; [siridb_mutex] alone
    for the increment of a database, and one database's [servers_mutex]
    alone for the increment of a server. *)
Theorem calls_follow_lock_protocol connector status_at st pre e post :
  trace (HEARTBEAT_work connector status_at st) = pre ++ e :: post →
  lock_rule (locks_held pre) e.
Proof.
  intros Hsplit.
  destruct (HEARTBEAT_work_has_shape connector status_at st) as (visits & _ & _ & Ht).
  destruct (lock_block_run_shape (siridb_list (shared st)) visits) as [Hp _].
  rewrite <- Ht, Hsplit in Hp. apply lock_protocol_app in Hp as [_ Hp].
  simpl in Hp. destruct Hp as [Hrule _]. exact Hrule.
Qed.

Lemma calls_follow_lock_protocol_witness :
  let run := HEARTBEAT_work Sample.connector (Sample.always SIRI_HEARTBEAT_RUNNING)
               (Sample.at_start (Sample.cluster [1; 2]%nat)) in
  (trace run = take 5 (trace run) ++ uv_mutex_lock (servers_mutex 1) :: drop 6 (trace run)
   ∧ locks_held (take 5 (trace run)) = [])
  ∧ (trace run = take 3 (trace run) ++ siridb_incref 2 :: drop 4 (trace run)
     ∧ locks_held (take 3 (trace run)) = [siridb_mutex])
  ∧ (trace run = take 15 (trace run) ++ siridb_server_decref 12 :: drop 16 (trace run)
     ∧ locks_held (take 15 (trace run)) = []).
Proof.
  pose (run := HEARTBEAT_work Sample.connector (Sample.always SIRI_HEARTBEAT_RUNNING)
                 (Sample.at_start (Sample.cluster [1; 2]%nat))).
  split; [split; [reflexivity | ] | split; [split; [reflexivity | ] | split; [reflexivity | ]]].
  - exact (calls_follow_lock_protocol Sample.connector
             (Sample.always SIRI_HEARTBEAT_RUNNING)
             (Sample.at_start (Sample.cluster [1; 2]%nat))
             (take 5 (trace run)) (uv_mutex_lock (servers_mutex 1))
             (drop 6 (trace run)) eq_refl).
  - exact (calls_follow_lock_protocol Sample.connector
             (Sample.always SIRI_HEARTBEAT_RUNNING)
             (Sample.at_start (Sample.cluster [1; 2]%nat))
             (take 3 (trace run)) (siridb_incref 2)
             (drop 4 (trace run)) eq_refl).
  - exact (calls_follow_lock_protocol Sample.connector
             (Sample.always SIRI_HEARTBEAT_RUNNING)
             (Sample.at_start (Sample.cluster [1; 2]%nat))
             (take 15 (trace run)) (siridb_server_decref 12)
             (drop 16 (trace run)) eq_refl).
Defined.

(** ** References held during a run *)

Lemma refs_respected_app a : ∀ dbs srvs b,
  refs_respected dbs srvs (a ++ b)
  ↔ refs_respected dbs srvs a
    ∧ refs_respected (foldl siridbs_step dbs a) (foldl servers_step srvs a) b.
Proof.
  induction a as [ | e a IH]; intros dbs srvs b; simpl.
  - tauto.
  - rewrite IH. tauto.
Qed.

(** A block of calls that respects the references held, takes or gives no
    database reference and leaves the servers' references as it found
    them; such blocks can be put one after the other. *)
Lemma refs_blocks_app dbs srvs a b :
  refs_respected dbs srvs a ∧ foldl siridbs_step dbs a = dbs
    ∧ foldl servers_step srvs a = srvs →
  refs_respected dbs srvs b ∧ foldl siridbs_step dbs b = dbs
    ∧ foldl servers_step srvs b = srvs →
  refs_respected dbs srvs (a ++ b) ∧ foldl siridbs_step dbs (a ++ b) = dbs
    ∧ foldl servers_step srvs (a ++ b) = srvs.
Proof.
  intros (Ha & Hda & Hsa) (Hb & Hdb & Hsb).
  rewrite refs_respected_app, !foldl_app, Hda, Hsa. repeat split; assumption.
Qed.

Lemma refs_siridb_increfs l : ∀ dbs srvs,
  refs_respected dbs srvs (siridb_incref <$> l)
  ∧ foldl siridbs_step dbs (siridb_incref <$> l) = dbs ⊎ list_to_set_disj l
  ∧ foldl servers_step srvs (siridb_incref <$> l) = srvs.
Proof.
  induction l as [ | d l IH]; intros dbs srvs.
  - repeat split. simpl. multiset_solver.
  - rewrite fmap_cons. simpl.
    destruct (IH (dbs ⊎ {[+ d +]}) srvs) as (Hr & Hd & Hs).
    rewrite Hd, Hs. repeat split; [exact Hr | multiset_solver].
Qed.

Lemma refs_server_increfs l : ∀ dbs srvs,
  refs_respected dbs srvs (siridb_server_incref <$> l)
  ∧ foldl siridbs_step dbs (siridb_server_incref <$> l) = dbs
  ∧ foldl servers_step srvs (siridb_server_incref <$> l) = srvs ⊎ list_to_set_disj l.
Proof.
  induction l as [ | s l IH]; intros dbs srvs.
  - repeat split. simpl. multiset_solver.
  - rewrite fmap_cons. simpl.
    destruct (IH dbs (srvs ⊎ {[+ s +]})) as (Hr & Hd & Hs).
    rewrite Hd, Hs. repeat split; [exact Hr | multiset_solver].
Qed.

(** The servers' turns give back, one by one, the references of the
    snapshot, each held when its server is connected and decremented. *)
Lemma refs_server_turns siridb dbs turns : ∀ srvs,
  siridb ∈ dbs →
  refs_respected dbs (srvs ⊎ list_to_set_disj turns.*1) (turns ≫= server_turn siridb)
  ∧ foldl siridbs_step dbs (turns ≫= server_turn siridb) = dbs
  ∧ foldl servers_step (srvs ⊎ list_to_set_disj turns.*1) (turns ≫= server_turn siridb)
    = srvs.
Proof.
  intros srvs Hdb. induction turns as [ | [srv go] turns (Hr & Hd & Hs)].
  - repeat split. simpl. multiset_solver.
  - rewrite bind_cons, fmap_cons, list_to_set_disj_cons.
    rewrite refs_respected_app, !foldl_app.
    assert (srv ∈ srvs ⊎ ({[+ srv +]} ⊎ list_to_set_disj turns.*1)) as Hin
      by multiset_solver.
    assert ((srvs ⊎ ({[+ srv +]} ⊎ list_to_set_disj turns.*1)) ∖ {[+ srv +]}
            = srvs ⊎ list_to_set_disj turns.*1) as Hout by multiset_solver.
    destruct go; simpl; rewrite Hout, Hd, Hs; repeat split; assumption.
Qed.

Lemma refs_siridb_turn dbs visit :
  visit.1 ∈ dbs →
  refs_respected dbs ∅ (siridb_turn visit)
  ∧ foldl siridbs_step dbs (siridb_turn visit) = dbs
  ∧ foldl servers_step ∅ (siridb_turn visit) = ∅.
Proof.
  destruct visit as [d turns]. simpl fst. intros Hdb. unfold siridb_turn.
  simpl fst. simpl snd.
  destruct (refs_server_increfs turns.*1 dbs ∅) as (Hr1 & Hd1 & Hs1).
  destruct (refs_server_turns d dbs turns ∅ Hdb) as (Hr2 & Hd2 & Hs2).
  simpl. rewrite refs_respected_app, !foldl_app, Hd1, Hs1. simpl.
  rewrite refs_respected_app, !foldl_app, Hd2, Hs2. simpl.
  repeat split; assumption.
Qed.

Lemma refs_visits dbs visits :
  Forall (λ d, d ∈ dbs) visits.*1 →
  refs_respected dbs ∅ (visits ≫= siridb_turn)
  ∧ foldl siridbs_step dbs (visits ≫= siridb_turn) = dbs
  ∧ foldl servers_step ∅ (visits ≫= siridb_turn) = ∅.
Proof.
  induction visits as [ | visit visits IH]; intros Hall; [repeat split | ].
  rewrite fmap_cons in Hall. apply Forall_cons in Hall as [Hdb Hall].
  rewrite bind_cons. apply refs_blocks_app; [apply refs_siridb_turn; exact Hdb | ].
  apply IH. exact Hall.
Qed.

Lemma refs_release n d : ∀ dbs,
  refs_respected dbs ∅ (replicate n (siridb_decref d))
  ∧ foldl servers_step ∅ (replicate n (siridb_decref d)) = ∅.
Proof.
  induction n as [ | n IH]; intros dbs; [repeat split | ].
  simpl. destruct (IH (dbs ∖ {[+ d +]})) as [Hr Hs]. repeat split; assumption.
Qed.

Lemma refs_run_shape slsiridb visits :
  visits.*1 `prefix_of` slsiridb →
  refs_respected ∅ ∅ (run_shape slsiridb visits)
  ∧ servers_held (run_shape slsiridb visits) = ∅.
Proof.
  intros Hpre. unfold run_shape, servers_held.
  destruct (refs_siridb_increfs slsiridb ∅ ∅) as (Hr1 & Hd1 & Hs1).
  assert (Forall (λ d, d ∈ (∅ ⊎ list_to_set_disj slsiridb : gmultiset siridb_ptr))
            visits.*1) as Hall.
  { apply Forall_forall. intros d Hin.
    apply gmultiset_elem_of_disj_union. right.
    apply elem_of_list_to_set_disj. apply (elem_of_prefix visits.*1); assumption. }
  destruct (refs_visits _ visits Hall) as (Hr2 & Hd2 & Hs2).
  simpl. rewrite refs_respected_app, !foldl_app, Hd1, Hs1. simpl.
  rewrite refs_respected_app, !foldl_app, Hd2, Hs2.
  destruct (list.last visits) as [visit | ].
  - destruct (refs_release (length slsiridb) visit.1 (∅ ⊎ list_to_set_disj slsiridb))
      as [Hr3 Hs3].
    repeat split; assumption.
  - repeat split; assumption.
Qed.

(** X9: at every connect of every run, the run holds a reference it has
    not yet given back both on the database and on the server passed to
    the connector; a server is decremented only while the run holds a
    reference on it; and when the run returns it holds no server's
    reference. *)
Theorem connector_called_with_references_held connector status_at st pre e post :
  trace (HEARTBEAT_work connector status_at st) = pre ++ e :: post →
  refs_rule (siridbs_held pre) (servers_held pre) e
  ∧ servers_held (trace (HEARTBEAT_work connector status_at st)) = ∅.
Proof.
  intros Hsplit.
  destruct (HEARTBEAT_work_has_shape connector status_at st) as (visits & Hpre & _ & Ht).
  destruct (refs_run_shape (siridb_list (shared st)) visits Hpre) as [Hr Hend].
  rewrite <- Ht in Hr, Hend. split; [ | exact Hend].
  rewrite Hsplit in Hr. apply refs_respected_app in Hr as [_ Hr].
  simpl in Hr. destruct Hr as [Hrule _]. exact Hrule.
Qed.

Lemma connector_called_with_references_held_witness :
  let run := HEARTBEAT_work Sample.connector (Sample.always SIRI_HEARTBEAT_RUNNING)
               (Sample.at_start (Sample.cluster [1; 2]%nat)) in
  trace run = take 26 (trace run) ++ siridb_server_connect 2 22 :: drop 27 (trace run)
  ∧ (2%nat ∈ siridbs_held (take 26 (trace run))
     ∧ 22%nat ∈ servers_held (take 26 (trace run)))
  ∧ servers_held (trace run) = ∅.
Proof.
  split; [reflexivity | ].
  exact (connector_called_with_references_held Sample.connector
           (Sample.always SIRI_HEARTBEAT_RUNNING)
           (Sample.at_start (Sample.cluster [1; 2]%nat))
           (take 26 (trace (HEARTBEAT_work Sample.connector
                              (Sample.always SIRI_HEARTBEAT_RUNNING)
                              (Sample.at_start (Sample.cluster [1; 2]%nat)))))
           (siridb_server_connect 2 22)
           (drop 27 (trace (HEARTBEAT_work Sample.connector
                              (Sample.always SIRI_HEARTBEAT_RUNNING)
                              (Sample.at_start (Sample.cluster [1; 2]%nat)))))
           eq_refl).
Defined.

(** ** The scheduler: status and work in flight *)

Lemma completions_cons e es :
  completions (e :: es) = ((if is_work_done e then 1 else 0) + completions es)%nat.
Proof.
  unfold completions. rewrite filter_cons. destruct e; reflexivity.
Qed.

Section accounting.
Variable uv_rc : uv_request → Z.

(** One step of the loop keeps the status and the number of requests in
    flight in step: none while PENDING, one while RUNNING, never two. *)
Lemma loop_step_in_step s e :
  (status (heartbeat (main s)) = SIRI_HEARTBEAT_PENDING → in_flight s = 0%nat)
  ∧ (status (heartbeat (main s)) = SIRI_HEARTBEAT_RUNNING → in_flight s = 1%nat)
  ∧ (in_flight s ≤ 1)%nat →
  (status (heartbeat (main (loop_step uv_rc s e).1)) = SIRI_HEARTBEAT_PENDING →
   in_flight (loop_step uv_rc s e).1 = 0%nat)
  ∧ (status (heartbeat (main (loop_step uv_rc s e).1)) = SIRI_HEARTBEAT_RUNNING →
     in_flight (loop_step uv_rc s e).1 = 1%nat)
  ∧ (in_flight (loop_step uv_rc s e).1 ≤ 1)%nat
  ∧ (queued (loop_step uv_rc s e).2 + in_flight s
     = in_flight (loop_step uv_rc s e).1 + (if is_work_done e then in_flight s else 0))%nat.
Proof.
  intros (Hidle & Hbusy & Hle). destruct e as [now | work_status now | ]; unfold loop_step.
  - destruct (decide (status (heartbeat (main s)) = SIRI_HEARTBEAT_PENDING)) as [Hp | Hp].
    + rewrite (HEARTBEAT_cb_starts uv_rc now _ Hp). unfold after; simpl.
      rewrite (Hidle Hp), queued_queue_work.
      split; [discriminate | split; [reflexivity | split; [lia | reflexivity]]].
    + rewrite (HEARTBEAT_cb_skips uv_rc now _ Hp). unfold after; simpl.
      rewrite queued_nil.
      split; [intros H; contradiction | split; [ | split; [lia | lia]]].
      intros Hr. rewrite (Hbusy Hr). reflexivity.
  - destruct (in_flight s) as [ | n] eqn:Hn.
    + simpl. rewrite Hn.
      split; [reflexivity | split; [exact Hbusy | split; [lia | reflexivity]]].
    + assert (n = 0%nat) as -> by lia.
      destruct (decide (status (heartbeat (main s)) = SIRI_HEARTBEAT_RUNNING)) as [Hr | Hr].
      * rewrite (HEARTBEAT_work_finish_running work_status now _ Hr). unfold after; simpl.
        rewrite queued_nil.
        split; [reflexivity | split; [discriminate | split; [lia | reflexivity]]].
      * rewrite (HEARTBEAT_work_finish_other work_status now _ Hr). unfold after; simpl.
        rewrite queued_nil.
        split; [reflexivity | split; [intros H; contradiction | split; [lia | reflexivity]]].
  - rewrite siri_heartbeat_cancel_eq. unfold after; simpl. rewrite queued_cancel.
    split; [discriminate | split; [discriminate | split; [lia | lia]]].
Qed.

Lemma loop_run_in_step es : ∀ s,
  (status (heartbeat (main s)) = SIRI_HEARTBEAT_PENDING → in_flight s = 0%nat)
  ∧ (status (heartbeat (main s)) = SIRI_HEARTBEAT_RUNNING → in_flight s = 1%nat)
  ∧ (in_flight s ≤ 1)%nat →
  (status (heartbeat (main (loop_run uv_rc s es).1)) = SIRI_HEARTBEAT_PENDING →
   in_flight (loop_run uv_rc s es).1 = 0%nat)
  ∧ (status (heartbeat (main (loop_run uv_rc s es).1)) = SIRI_HEARTBEAT_RUNNING →
     in_flight (loop_run uv_rc s es).1 = 1%nat)
  ∧ (queued (loop_run uv_rc s es).2 + in_flight s ≤ completions es + 1)%nat.
Proof.
  induction es as [ | e es IH]; intros s Hs.
  - destruct Hs as (Hidle & Hbusy & Hle).
    change (loop_run uv_rc s []) with (s, @nil event).
    split; [exact Hidle | split; [exact Hbusy | ]].
    change ((s, @nil event).2) with (@nil event). rewrite queued_nil.
    unfold completions; simpl; lia.
  - simpl. rewrite completions_cons.
    destruct (loop_step_in_step s e Hs) as (Hidle1 & Hbusy1 & Hle1 & Hq1).
    destruct Hs as (_ & _ & Hle).
    destruct (loop_step uv_rc s e) as [s1 t1]. simpl in Hidle1, Hbusy1, Hle1, Hq1.
    destruct (IH s1 (conj Hidle1 (conj Hbusy1 Hle1))) as (Hidle2 & Hbusy2 & Hq2).
    destruct (loop_run uv_rc s1 es) as [s2 t2]. simpl in Hidle2, Hbusy2, Hq2 |- *.
    split; [exact Hidle2 | split; [exact Hbusy2 | ]].
    rewrite queued_app. destruct (is_work_done e); lia.
Qed.

End accounting.

(** X12: after [siri_heartbeat_init] and any sequence of timer fires,
    completions and cancels, the status and the work handed to libuv
    agree: no request is in flight while the status is PENDING, and
    exactly one is while it is RUNNING, so a RUNNING status always has the
    completion pending that will reset it. *)
Theorem status_tracks_work_in_flight uv_rc heartbeat_interval s0 es :
  (status (heartbeat (main (loop_run uv_rc (boot uv_rc heartbeat_interval s0) es).1))
   = SIRI_HEARTBEAT_PENDING →
   in_flight (loop_run uv_rc (boot uv_rc heartbeat_interval s0) es).1 = 0%nat)
  ∧ (status (heartbeat (main (loop_run uv_rc (boot uv_rc heartbeat_interval s0) es).1))
     = SIRI_HEARTBEAT_RUNNING →
     in_flight (loop_run uv_rc (boot uv_rc heartbeat_interval s0) es).1 = 1%nat).
Proof.
  destruct (loop_run_in_step uv_rc es (boot uv_rc heartbeat_interval s0))
    as (Hidle & Hbusy & _).
  - simpl. split; [reflexivity | split; [discriminate | lia]].
  - split; [exact Hidle | exact Hbusy].
Qed.

Lemma status_tracks_work_in_flight_witness :
  in_flight (loop_run Sample.uv_fine (boot Sample.uv_fine 30 Sample.blank)
               [timer_fires 1; work_done 0 2; timer_fires 3; work_done 0 9]).1 = 0%nat
  ∧ in_flight (loop_run Sample.uv_fine (boot Sample.uv_fine 30 Sample.blank)
                 [timer_fires 1; work_done 0 2; timer_fires 3; timer_fires 4]).1 = 1%nat.
Proof.
  split.
  - apply (status_tracks_work_in_flight Sample.uv_fine 30 Sample.blank
             [timer_fires 1; work_done 0 2; timer_fires 3; work_done 0 9]).
    reflexivity.
  - apply (status_tracks_work_in_flight Sample.uv_fine 30 Sample.blank
             [timer_fires 1; work_done 0 2; timer_fires 3; timer_fires 4]).
    reflexivity.
Defined.

(** X13: timer fires do not pile up runs: over any sequence of timer
    fires, completions and cancels after [siri_heartbeat_init], the number
    of work requests queued is at most the number of completions plus
    one, however many times the timer fired. *)
Theorem runs_queued_bounded_by_completions uv_rc heartbeat_interval s0 es :
  (queued (loop_run uv_rc (boot uv_rc heartbeat_interval s0) es).2
   ≤ completions es + 1)%nat.
Proof.
  destruct (loop_run_in_step uv_rc es (boot uv_rc heartbeat_interval s0))
    as (_ & _ & Hq).
  - simpl. split; [reflexivity | split; [discriminate | lia]].
  - simpl in Hq. lia.
Qed.

(** ** Which connects a run makes *)

Lemma connects_server_turns siridb turns :
  ∃ ss,
    connects (turns ≫= server_turn siridb) = (λ s, (siridb, s)) <$> ss
    ∧ ss `sublist_of` turns.*1.
Proof.
  induction turns as [ | [srv go] turns (ss & Hc & Hsub)].
  - exists []. split; [reflexivity | constructor].
  - rewrite bind_cons, connects_app, Hc, fmap_cons. destruct go.
    + exists (srv :: ss). split; [reflexivity | apply sublist_skip; exact Hsub].
    + exists ss. split; [reflexivity | apply sublist_cons; exact Hsub].
Qed.

Lemma connects_siridb_turn visit :
  connects (siridb_turn visit) = connects (visit.2 ≫= server_turn visit.1).
Proof.
  destruct visit as [d turns]. unfold siridb_turn. simpl fst. simpl snd.
  destruct (server_increfs_reads turns.*1) as (_ & _ & Hc).
  change (connects (uv_mutex_lock (servers_mutex d)
                     :: llist2slist (servers_mutex d) :: ?l))
    with (connects l).
  rewrite connects_app, Hc.
  change (connects (uv_mutex_unlock (servers_mutex d) :: sleep 1 :: ?l))
    with (connects l).
  rewrite connects_app. simpl. apply app_nil_r.
Qed.

(** X14: in the visit of one database, whatever the connector does and
    whenever the run is cancelled, the connects are all for that database
    and their servers are a sublist of the database's server list as
    snapshotted: in the order of the list, at most one connect per entry. *)
Theorem visit_connects_sublist_of_snapshot connector status_at siridb st :
  ∃ ss,
    connects (trace (visit_siridb connector status_at siridb st))
    = (λ s, (siridb, s)) <$> ss
    ∧ ss `sublist_of` servers (siridb_at (shared st) siridb).
Proof.
  destruct (visit_siridb_shape connector status_at siridb st) as (turns & Hfst & Ht).
  destruct (connects_server_turns siridb turns) as (ss & Hc & Hsub).
  exists ss. rewrite Ht, connects_siridb_turn, <- Hfst. split; [exact Hc | exact Hsub].
Qed.

Section due_connects.
Variable connector : siri_t → siridb_ptr → server_ptr → siri_t.
Variable status_at : nat → siri_heartbeat_status_t.

(** The run is not cancelled; the connector leaves the databases' structs
    alone, and the sockets of the servers other than the one it is given. *)
Hypothesis never_cancelled : ∀ t, status_at t ≠ SIRI_HEARTBEAT_CANCELLED.
Hypothesis connector_keeps_siridb :
  ∀ w d s d', siridb_at (connector w d s) d' = siridb_at w d'.
Hypothesis connector_keeps_others :
  ∀ w d s s', s' ≠ s → socket (server_at (connector w d s) s') = socket (server_at w s').

Lemma agrees_quiet w st evs keep :
  agrees w (shared st) keep → connects evs = [] →
  agrees w (shared (advance connector st evs)) keep.
Proof. intros Ha Hq. rewrite (advance_shared connector st evs Hq). exact Ha. Qed.

Lemma visit_server_due w siridb srv rest st :
  agrees w (shared st) (srv :: rest) → srv ∉ rest →
  connects (trace (visit_server connector status_at siridb srv st))
  = (if decide (due w siridb srv) then [(siridb, srv)] else [])
  ∧ agrees w (shared (final (visit_server connector status_at siridb srv st))) rest.
Proof.
  intros [Hdb Hsock] Hnew.
  rewrite (tracked_visit_server connector status_at siridb srv st), visit_server_trace.
  assert (connect_allowed status_at st siridb srv ↔ due w siridb srv) as Hiff.
  { unfold connect_allowed, due.
    rewrite Hdb, (Hsock srv (list_elem_of_here _ _)).
    pose proof (never_cancelled (clock st)). tauto. }
  destruct (decide (due w siridb srv)) as [Hdue | Hdue].
  - rewrite bool_decide_eq_true_2 by (apply Hiff; exact Hdue).
    split; [reflexivity | ]. simpl. split.
    + intros d. rewrite connector_keeps_siridb. apply Hdb.
    + intros s Hin. rewrite connector_keeps_others.
      * apply Hsock. apply list_elem_of_further. exact Hin.
      * intros ->. contradiction.
  - rewrite bool_decide_eq_false_2 by (intros H; apply Hdue, Hiff; exact H).
    split; [reflexivity | ]. simpl. split; [exact Hdb | ].
    intros s Hin. apply Hsock. apply list_elem_of_further. exact Hin.
Qed.

Lemma servers_loop_due w siridb slservers keep : ∀ st,
  agrees w (shared st) (slservers ++ keep) → NoDup (slservers ++ keep) →
  connects (trace (for_each slservers (visit_server connector status_at siridb) st))
  = (λ s, (siridb, s)) <$> filter (due w siridb) slservers
  ∧ agrees w (shared (final (for_each slservers
                               (visit_server connector status_at siridb) st))) keep.
Proof.
  induction slservers as [ | srv rest IH]; intros st Ha Hnd.
  - split; [reflexivity | exact Ha].
  - simpl in Ha, Hnd. apply NoDup_cons in Hnd as [Hnew Hnd].
    destruct (visit_server_due w siridb srv (rest ++ keep) st Ha Hnew) as [Hc1 Ha1].
    destruct (IH _ Ha1 Hnd) as [Hc2 Ha2].
    simpl for_each. rewrite run_bind. simpl. rewrite connects_app, Hc1, Hc2.
    split; [ | exact Ha2].
    rewrite filter_cons. destruct (decide (due w siridb srv)); reflexivity.
Qed.

Lemma visit_siridb_due w siridb keep st :
  agrees w (shared st) (servers (siridb_at w siridb) ++ keep) →
  NoDup (servers (siridb_at w siridb) ++ keep) →
  connects (trace (visit_siridb connector status_at siridb st))
  = (λ s, (siridb, s)) <$> filter (due w siridb) (servers (siridb_at w siridb))
  ∧ agrees w (shared (final (visit_siridb connector status_at siridb st))) keep.
Proof.
  intros Ha Hnd. unfold visit_siridb.
  rewrite run_bind. simpl. rewrite run_bind. simpl. rewrite run_bind. simpl.
  rewrite snapshot_servers_result, !connects_app, connects_snapshot_servers.
  destruct Ha as [Hdb Hsock]. rewrite Hdb.
  match goal with
  | |- context [for_each ?l (visit_server _ _ ?d) ?s] =>
      destruct (servers_loop_due w d l keep s) as [Hc Ha']
  end.
  - simpl. rewrite (quiet_shared connector (snapshot_servers connector siridb) st
                      (tracked_snapshot_servers connector siridb)
                      (connects_snapshot_servers connector siridb st)).
    split; assumption.
  - exact Hnd.
  - change (connects (sleep 1 :: ?l)) with (connects l).
    rewrite connects_app, Hc. simpl. rewrite app_nil_r. split; [reflexivity | exact Ha'].
Qed.

Lemma visit_all_due w slsiridb : ∀ siridb st,
  agrees w (shared st) (slsiridb ≫= λ d, servers (siridb_at w d)) →
  NoDup (slsiridb ≫= λ d, servers (siridb_at w d)) →
  connects (trace (visit_all connector status_at slsiridb siridb st))
  = connects_due w slsiridb.
Proof.
  induction slsiridb as [ | d rest IH]; intros siridb st Ha Hnd; [reflexivity | ].
  rewrite bind_cons in Ha, Hnd.
  destruct (visit_siridb_due w d _ st Ha Hnd) as [Hc Ha'].
  simpl visit_all. rewrite run_bind. simpl. rewrite run_bind. simpl.
  destruct (decide (status_at _ = SIRI_HEARTBEAT_CANCELLED)) as [Hcancel | _].
  - exfalso. exact (never_cancelled _ Hcancel).
  - rewrite connects_app, Hc.
    change (connects_due w (d :: rest))
      with (((λ s, (d, s)) <$> filter (due w d) (servers (siridb_at w d)))
            ++ connects_due w rest).
    f_equal.
    apply IH; [exact Ha' | ]. apply NoDup_app in Hnd as (_ & _ & Hnd). exact Hnd.
Qed.

Lemma HEARTBEAT_work_due st :
  NoDup (siridb_list (shared st) ≫= λ d, servers (siridb_at (shared st) d)) →
  connects (trace (HEARTBEAT_work connector status_at st))
  = connects_due (shared st) (siridb_list (shared st)).
Proof.
  intros Hnd. rewrite HEARTBEAT_work_trace. simpl.
  rewrite !connects_app, connects_snapshot_siridb, connects_release_all, app_nil_r.
  simpl. apply visit_all_due; [ | exact Hnd].
  rewrite (quiet_shared connector (snapshot_siridb connector) st
             (tracked_snapshot_siridb connector) (connects_snapshot_siridb connector st)).
  split; reflexivity.
Qed.

End due_connects.

(** X15: when the status never reads CANCELLED, no server occurs twice in
    the lists of the databases, and the connector changes neither a
    database's struct nor the socket of any server but the one it is
    given, a run connects exactly the peers that were due when it started
    (not the database's own server, socket NULL), each once, database by
    database and server by server in the order of the lists. *)
Theorem run_connects_exactly_the_due_peers connector status_at st :
  (∀ t, status_at t ≠ SIRI_HEARTBEAT_CANCELLED) →
  (∀ w d s d', siridb_at (connector w d s) d' = siridb_at w d') →
  (∀ w d s s', s' ≠ s → socket (server_at (connector w d s) s') = socket (server_at w s')) →
  NoDup (siridb_list (shared st) ≫= λ d, servers (siridb_at (shared st) d)) →
  connects (trace (HEARTBEAT_work connector status_at st))
  = connects_due (shared st) (siridb_list (shared st)).
Proof.
  intros Hrun Hdb Hsock Hnd.
  apply (HEARTBEAT_work_due connector status_at Hrun Hdb Hsock st Hnd).
Qed.

Lemma run_connects_exactly_the_due_peers_witness :
  let st := Sample.at_start (Sample.cluster [1; 2]%nat) in
  connects_due (shared st) (siridb_list (shared st)) = [(1, 12); (2, 22)]%nat
  ∧ connects (trace (HEARTBEAT_work Sample.connector
                       (Sample.always SIRI_HEARTBEAT_RUNNING) st))
    = connects_due (shared st) (siridb_list (shared st)).
Proof.
  split; [reflexivity | ].
  apply (run_connects_exactly_the_due_peers Sample.connector
           (Sample.always SIRI_HEARTBEAT_RUNNING)
           (Sample.at_start (Sample.cluster [1; 2]%nat))).
  - intros t. discriminate.
  - intros w d s d'. reflexivity.
  - intros w d s s' Hne. simpl.
    destruct (decide (s' = s)) as [Heq | _]; [contradiction | reflexivity].
  - refine (bool_decide_unpack _ _). vm_compute. exact I.
Defined.
